(** * frekvent: the Swedish word-frequency builder (build.py)

    A shallow embedding of the corpus pipeline of [build.py]: the
    Gutenberg boilerplate stripper, the tokenizer with its two word
    lists, the per-file worker, the reduction of worker results into one
    corpus counter, the Swadesh ranking and the tier coverage.

    Modelling choices.
    - A Python [str] is the list of its code points ([list N]); string
      literals of the source are written as Rocq strings and decoded from
      UTF-8 by [py], as Python decodes the source file.
    - A [Counter] is a finite map from words to integers
      ([gmap str Z]); Python integers are unbounded, hence [Z].
    - The file system, PyMuPDF, zipfile and HTMLParser are outside the
      repository: their answers are the fields of an environment record.
    - [multiprocessing.Pool.imap_unordered] delivers the worker results
      in an order the program does not control: the reduction is a
      function of the arrival sequence, which is a permutation of the
      worker results.
    - A Python float is the rational number it denotes ([Q]); every
      float operation rounds its exact result to the nearest binary64
      number, ties to even ([binary64]). *)

From Stdlib Require Import QArith Qround Qabs Qpower Lqa.
From stdpp Require Import gmap strings list fin_maps sorting.

Local Open Scope N_scope.

(** ** Python strings *)

Abbreviation str := (list N).

(** UTF-8 decoding of a source literal (sequences of one to four bytes). *)
Fixpoint utf8_decode (bs : list N) : str :=
  match bs with
  | [] => []
  | b0 :: r0 =>
    if b0 <? 128 then b0 :: utf8_decode r0
    else match r0 with
    | [] => [b0]
    | b1 :: r1 =>
      if b0 <? 224 then ((b0 - 192) * 64 + (b1 - 128)) :: utf8_decode r1
      else match r1 with
      | [] => [b0; b1]
      | b2 :: r2 =>
        if b0 <? 240
        then ((b0 - 224) * 4096 + (b1 - 128) * 64 + (b2 - 128)) :: utf8_decode r2
        else match r2 with
        | [] => [b0; b1; b2]
        | b3 :: r3 =>
          ((b0 - 240) * 262144 + (b1 - 128) * 4096 + (b2 - 128) * 64 + (b3 - 128))
            :: utf8_decode r3
        end
      end
    end
  end.

Definition py (s : string) : str :=
  utf8_decode (map Ascii.N_of_ascii (String.list_ascii_of_string s)).

(** [str.lower()].  The cases written out are all the code points whose
    lowercase form contains a letter of [_WORD_RE] or of a file
    extension: A-Z, the Latin-1 capitals, U+0130 (which lowers to "i"
    followed by U+0307), the Kelvin sign and the Angstrom sign.  Every
    other code point lowers to code points outside those classes and is
    left in place here. *)
Definition lower_char (c : N) : str :=
  if (65 <=? c) && (c <=? 90) then [c + 32]
  else if (192 <=? c) && (c <=? 222) && negb (c =? 215) then [c + 32]
  else if c =? 304 then [105; 775]
  else if c =? 8490 then [107]
  else if c =? 8491 then [229]
  else [c].

Definition lower (s : str) : str := flat_map lower_char s.

Fixpoint startswith (s p : str) : bool :=
  match p, s with
  | [], _ => true
  | _ :: _, [] => false
  | a :: p', b :: s' => (a =? b) && startswith s' p'
  end.

Definition endswith (s p : str) : bool := startswith (reverse s) (reverse p).

(** [text.find(sub)]: the lowest index at which [sub] occurs; [None]
    stands for Python's -1. *)
Fixpoint find (sub text : str) : option nat :=
  if startswith text sub then Some 0%nat
  else match text with
       | [] => None
       | _ :: rest => S <$> find sub rest
       end.

(** [text.find(sub, start)]. *)
Definition find_from (sub text : str) (start : nat) : option nat :=
  (λ k, (start + k)%nat) <$> find sub (drop start text).

(** [text.rfind(c)] for a one-character [c]. *)
Fixpoint rfind_char (c : N) (text : str) : option nat :=
  match text with
  | [] => None
  | a :: rest =>
    match rfind_char c rest with
    | Some i => Some (S i)
    | None => if a =? c then Some 0%nat else None
    end
  end.

(** [sep.join(parts)]. *)
Fixpoint join (sep : str) (parts : list str) : str :=
  match parts with
  | [] => []
  | [p] => p
  | p :: rest => p ++ sep ++ join sep rest
  end.

(** ** Gutenberg header and footer stripping *)

Definition _START_MARKERS : list str :=
  [ py "*** START OF THIS PROJECT GUTENBERG";
    py "*** START OF THE PROJECT GUTENBERG";
    py "***START OF THIS PROJECT GUTENBERG";
    py "*** START OF THIS";
    py "*END*THE SMALL PRINT" ].

Definition _END_MARKERS : list str :=
  [ py "*** END OF THIS PROJECT GUTENBERG";
    py "*** END OF THE PROJECT GUTENBERG";
    py "***END OF THIS PROJECT GUTENBERG";
    py "*** END OF THIS";
    py "End of Project Gutenberg";
    py "End of the Project Gutenberg" ].

(** The loop [for marker in markers: idx = text.find(marker); if idx != -1:
    ...; break]: the index of the first marker, in list order, that
    occurs in the text. *)
Fixpoint first_marker (markers : list str) (text : str) : option nat :=
  match markers with
  | [] => None
  | marker :: rest =>
    match find marker text with
    | Some idx => Some idx
    | None => first_marker rest text
    end
  end.

Definition strip_start (text : str) : str :=
  match first_marker _START_MARKERS text with
  | Some idx =>
    match find_from [10] text idx with
    | Some nl => drop (nl + 1) text
    | None => text
    end
  | None => text
  end.

Definition strip_end (text : str) : str :=
  match first_marker _END_MARKERS text with
  | Some idx => take idx text
  | None => text
  end.

Definition strip_gutenberg_boilerplate (text : str) : str :=
  strip_end (strip_start text).

(** No start marker and no end marker occurs in the text. *)
Definition marker_free (text : str) : Prop :=
  first_marker _START_MARKERS text = None ∧
  first_marker _END_MARKERS text = None.

(** The first loop finds nothing to cut: no start marker occurs, or the
    one it picks has no line break after it. *)
Definition start_inert (text : str) : Prop :=
  match first_marker _START_MARKERS text with
  | Some idx => find_from [10] text idx = None
  | None => True
  end.

(** Neither loop finds anything to cut. *)
Definition nothing_to_strip (text : str) : Prop :=
  start_inert text ∧ first_marker _END_MARKERS text = None.

(** ** The English noise filter *)

Definition ENGLISH_STOPWORDS : gset str := list_to_set (py <$> [
    "the"; "of"; "a"; "and"; "to"; "in";
    "that"; "was"; "he"; "it"; "his"; "is";
    "with"; "for"; "as"; "had"; "her"; "not";
    "but"; "at"; "be"; "this"; "have"; "from";
    "or"; "by"; "which"; "you"; "an"; "were";
    "are"; "been"; "has"; "their"; "said"; "each";
    "she"; "do"; "its"; "about"; "would"; "them";
    "made"; "after"; "could"; "than"; "other"; "into";
    "more"; "some"; "time"; "very"; "when"; "come";
    "can"; "no"; "most"; "only"; "over"; "such";
    "also"; "back"; "should"; "well"; "these"; "where";
    "just"; "we"; "what"; "your"; "out"; "if";
    "will"; "up"; "my"; "who"; "so"; "they";
    "did"; "him"; "work"; "any"; "may"; "then";
    "first"; "all"; "our"; "free"; "state"; "one";
    "two"; "way"; "project"; "gutenberg"; "ebook"; "license";
    "electronic"; "works"; "foundation"; "terms"; "copy"; "distributed";
    "redistribution"; "agreement"; "trademark"; "paragraph"; "donations"; "copyright";
    "permission"; "archive"; "donation"; "volunteers"; "compliance"; "literary";
    "domain"; "public"; "refund"; "replacement"; "defect"; "disclaimer";
    "warranties"; "including"; "limited"; "merchantability"; "www"; "http";
    "org"; "htm"; "txt"; "utf" ]).

Definition SHARED_WORDS : gset str := list_to_set (py <$> [
    "i"; "de"; "en"; "se"; "man"; "nu";
    "du"; "vi"; "den"; "han"; "hon"; "sin";
    "an"; "under"; "in"; "fort"; "hand"; "modern";
    "barn"; "salt"; "sand"; "berg"; "is"; "fin";
    "hall"; "full"; "land"; "rum"; "folk"; "arm";
    "form"; "plan"; "film"; "ring"; "start"; "all";
    "organ"; "rest"; "lever"; "horn"; "mask"; "nor";
    "order" ]).

(** [w in words] for a set of words. *)
Definition in_set (w : str) (words : gset str) : bool := bool_decide (w ∈ words).

(** The code points from [lo] to [hi], both included (a range [lo-hi] of
    a character class). *)
Definition char_range (lo hi : N) : list N :=
  N.of_nat <$> seq (N.to_nat lo) (N.to_nat hi + 1 - N.to_nat lo).

(** The character class of [_WORD_RE], in the order it is written:
    [a-z], the accented lower-case letters, [A-Z], the accented capitals. *)
Definition _WORD_RE_class : list N :=
  char_range 97 122 ++ py "åäöéèüæø" ++ char_range 65 90 ++ py "ÅÄÖÉÈÜÆØ".

Definition is_word_char (c : N) : bool := bool_decide (c ∈ _WORD_RE_class).

(** [_WORD_RE.findall]: the maximal runs of class characters, left to
    right.  [cur] is the run being read. *)
Fixpoint findall_from (cur text : str) : list str :=
  match text with
  | [] => match cur with [] => [] | _ => [cur] end
  | c :: rest =>
    if is_word_char c then findall_from (cur ++ [c]) rest
    else match cur with
         | [] => findall_from [] rest
         | _ => cur :: findall_from [] rest
         end
  end.

Definition _WORD_RE_findall (text : str) : list str := findall_from [] text.

(** ** The tokenizer *)

(** One turn of the loop of [tokenize_and_count]; a missing key of a
    [Counter] reads as 0. *)
Definition count_word (counter : gmap str Z) (w : str) : gmap str Z :=
  if ((length w <? 1) || (40 <? length w))%nat then counter
  else if in_set w ENGLISH_STOPWORDS && negb (in_set w SHARED_WORDS) then counter
  else <[w := (default 0 (counter !! w) + 1)%Z]> counter.

Definition tokenize_and_count (text : str) : gmap str Z :=
  foldl count_word ∅ (_WORD_RE_findall (lower text)).

(** The word passes both filters of the loop. *)
Definition keeps (w : str) : bool :=
  negb ((length w <? 1) || (40 <? length w))%nat
  && negb (in_set w ENGLISH_STOPWORDS && negb (in_set w SHARED_WORDS)).

(** The characters for which [str.isspace()] holds. *)
Definition WHITESPACE : list N :=
  char_range 9 13 ++ char_range 28 32 ++ [133; 160; 5760] ++ char_range 8192 8202
  ++ [8232; 8233; 8239; 8287; 12288].

Definition isspace (c : N) : bool := bool_decide (c ∈ WHITESPACE).

(** ** Paths *)

(** [os.path.splitext] (posixpath): the extension starts at the last dot
    of the last path component, unless only dots precede it there. *)
Definition splitext (p : str) : str * str :=
  let filenameIndex :=
    match rfind_char 47 p with Some sepIndex => S sepIndex | None => 0%nat end in
  match rfind_char 46 p with
  | Some dotIndex =>
    if (filenameIndex <=? dotIndex)%nat
       && existsb (λ c, negb (c =? 46))
            (take (dotIndex - filenameIndex) (drop filenameIndex p))
    then (take dotIndex p, drop dotIndex p)
    else (p, [])
  | None => (p, [])
  end.

(** [os.path.basename] (posixpath). *)
Definition basename (p : str) : str :=
  match rfind_char 47 p with
  | Some sepIndex => drop (S sepIndex) p
  | None => p
  end.

(** ** Text extractors *)

(** What the world outside the program answers.  [None] stands for a
    raised exception (a missing file, a corrupt archive, ...).
    - [read_text]: [open(filepath, encoding="utf-8", errors="replace").read()];
    - [PDF_SUPPORT]: whether [import fitz] succeeded;
    - [pdf_pages]: [page.get_text()] for each page of [fitz.open(filepath)];
    - [epub_entries]: the entries of the zip archive in [namelist()] order,
      each with the data pieces [HTMLParser] hands to [handle_data] for
      its decoded content. *)
Record environment := {
  read_text : str → option str;
  PDF_SUPPORT : bool;
  pdf_pages : str → option (list str);
  epub_entries : str → option (list (str * list str));
}.

Definition extract_text_txt (env : environment) (filepath : str) : option str :=
  strip_gutenberg_boilerplate <$> read_text env filepath.

Definition extract_text_pdf (env : environment) (filepath : str) : option str :=
  if negb (PDF_SUPPORT env) then None
  else join [10] <$> pdf_pages env filepath.

Definition is_markup_name (name : str) : bool :=
  existsb (endswith (lower name)) [py ".html"; py ".xhtml"; py ".htm"].

Definition extract_text_epub (env : environment) (filepath : str) : option str :=
  (λ entries,
     join [10] ((λ e, join (py " ") e.2)
                <$> filter (λ e, is_markup_name e.1 = true) entries))
  <$> epub_entries env filepath.

Inductive handler := Handler_txt | Handler_pdf | Handler_epub.

Definition HANDLERS : list (str * handler) :=
  [ (py ".txt", Handler_txt); (py ".pdf", Handler_pdf); (py ".epub", Handler_epub) ].

(** [HANDLERS.get(ext)]. *)
Definition HANDLERS_get (ext : str) : option handler :=
  (λ found, found.2.2) <$> list_find (λ kv, kv.1 = ext) HANDLERS.

Definition run_handler (h : handler) : environment → str → option str :=
  match h with
  | Handler_txt => extract_text_txt
  | Handler_pdf => extract_text_pdf
  | Handler_epub => extract_text_epub
  end.

(** The result is [None] for an unknown extension, for a handler that
    returns [None] and for a handler that raises. *)
Definition extract_text (env : environment) (filepath : str) : option str :=
  let ext := lower (splitext filepath).2 in
  match HANDLERS_get ext with
  | None => None
  | Some h => run_handler h env filepath
  end.

(** ** The worker *)

Definition process_single_file (env : environment) (filepath : str)
  : option (gmap str Z * str) :=
  match extract_text env filepath with
  | None => None
  | Some text =>
    if bool_decide (text = []) || (length text <? 100)%nat then None
    else Some (tokenize_and_count text, filepath)
  end.

(** ** Aggregation *)

(** [Counter.update(other)]: every count of [other] is added to the
    count of the same key, a missing key counting as 0 (on an empty
    counter Python copies [other], which is the same mapping). *)
Definition Counter_update (self other : gmap str Z) : gmap str Z :=
  map_fold (λ elem count acc, <[elem := (count + default 0 (acc !! elem))%Z]> acc)
           self other.

(** [sum(counter.values())]. *)
Definition values_sum (counter : gmap str Z) : Z :=
  map_fold (λ _ count acc, (acc + count)%Z) 0%Z counter.

(** The variables of the loop of [build_frequency_counter]. *)
Record progress := {
  total_counter : gmap str Z;
  n_done : Z;
  n_failed : Z;
  book_stats : list (str * Z);
}.

Definition progress_start : progress :=
  {| total_counter := ∅; n_done := 0; n_failed := 0; book_stats := [] |}.

(** One turn of the loop, for one result taken from the pool. *)
Definition collect (st : progress) (result : option (gmap str Z * str)) : progress :=
  match result with
  | None =>
    {| total_counter := total_counter st;
       n_done := n_done st + 1;
       n_failed := n_failed st + 1;
       book_stats := book_stats st |}
  | Some (sub_counter, filepath) =>
    let word_count := values_sum sub_counter in
    {| total_counter := Counter_update (total_counter st) sub_counter;
       n_done := n_done st + 1;
       n_failed := n_failed st;
       book_stats := book_stats st ++ [(basename filepath, word_count)] |}
  end.

(** [pool.imap_unordered(f, xs)] yields the results of [f] on [xs] in
    some order: [arrival] is one such sequence. *)
Definition imap_unordered {A B} (f : A → B) (xs : list A) (arrival : list B) : Prop :=
  arrival ≡ₚ f <$> xs.

(** [build_frequency_counter], as a function of the sequence in which the
    pool hands the results back.  The number of workers and the chunk
    size only bear on that sequence, and the progress bar is output only;
    they are left out. *)
Definition build_frequency_counter (all_files : list str)
    (arrival : list (option (gmap str Z * str))) : gmap str Z * list (str * Z) * Z :=
  if bool_decide (length all_files = 0%nat) then (∅, [], 0%Z)
  else
    let st := foldl collect progress_start arrival in
    (total_counter st, book_stats st, n_failed st).

(** ** The Swadesh list *)

(** The dictionary literal, in the order of the source; its keys are
    pairwise distinct, so these are the items of the dictionary. *)
Definition SWADESH_SWEDISH : list (str * str) :=
  (λ kv : string * string, (py kv.1, py kv.2)) <$> [
    ("jag", "I"); ("du", "you (singular)");
    ("han", "he"); ("hon", "she");
    ("vi", "we"); ("ni", "you (plural)");
    ("de", "they"); ("dem", "them");
    ("den", "it / that"); ("det", "it (neuter)");
    ("denna", "this"); ("detta", "this (neuter)");
    ("här", "here"); ("där", "there");
    ("vem", "who"); ("vad", "what");
    ("var", "was / where"); ("när", "when");
    ("hur", "how"); ("inte", "not");
    ("alla", "all"); ("många", "many");
    ("några", "some"); ("få", "few / to get");
    ("andra", "other"); ("en", "a / one");
    ("ett", "a / one (neuter)"); ("två", "two");
    ("tre", "three"); ("fyra", "four");
    ("fem", "five"); ("stor", "big");
    ("lång", "long"); ("bred", "wide");
    ("tjock", "thick"); ("tung", "heavy");
    ("liten", "small"); ("kort", "short");
    ("smal", "narrow"); ("tunn", "thin");
    ("kvinna", "woman"); ("man", "man");
    ("människa", "person"); ("barn", "child");
    ("hustru", "wife"); ("make", "husband");
    ("mor", "mother"); ("far", "father");
    ("djur", "animal"); ("fisk", "fish");
    ("fågel", "bird"); ("hund", "dog");
    ("lus", "louse"); ("orm", "snake");
    ("mask", "worm"); ("träd", "tree");
    ("skog", "forest"); ("käpp", "stick");
    ("frukt", "fruit"); ("frö", "seed");
    ("blad", "leaf"); ("rot", "root");
    ("bark", "bark (tree)"); ("blomma", "flower");
    ("gräs", "grass"); ("rep", "rope");
    ("hud", "skin"); ("kött", "meat / flesh");
    ("blod", "blood"); ("ben", "bone / leg");
    ("fett", "fat"); ("ägg", "egg");
    ("horn", "horn"); ("svans", "tail");
    ("fjäder", "feather"); ("hår", "hair");
    ("huvud", "head"); ("öra", "ear");
    ("öga", "eye"); ("näsa", "nose");
    ("mun", "mouth"); ("tand", "tooth");
    ("tunga", "tongue"); ("nagel", "fingernail");
    ("fot", "foot"); ("knä", "knee");
    ("hand", "hand"); ("vinge", "wing");
    ("mage", "belly"); ("inälvor", "guts");
    ("hals", "neck"); ("rygg", "back (body)");
    ("bröst", "breast"); ("hjärta", "heart");
    ("lever", "liver"); ("dricka", "to drink");
    ("äta", "to eat"); ("bita", "to bite");
    ("se", "to see"); ("höra", "to hear");
    ("veta", "to know"); ("tänka", "to think");
    ("lukta", "to smell"); ("frukta", "to fear");
    ("sova", "to sleep"); ("leva", "to live");
    ("dö", "to die"); ("döda", "to kill");
    ("kämpa", "to fight"); ("jaga", "to hunt");
    ("slå", "to hit"); ("skära", "to cut");
    ("dela", "to split"); ("sticka", "to stab");
    ("klia", "to scratch"); ("gräva", "to dig");
    ("simma", "to swim"); ("flyga", "to fly");
    ("gå", "to walk / go"); ("komma", "to come");
    ("ligga", "to lie down"); ("sitta", "to sit");
    ("stå", "to stand"); ("vända", "to turn");
    ("falla", "to fall"); ("ge", "to give");
    ("hålla", "to hold"); ("klämma", "to squeeze");
    ("gnida", "to rub"); ("tvätta", "to wash");
    ("torka", "to wipe / dry"); ("dra", "to pull");
    ("trycka", "to push"); ("kasta", "to throw");
    ("binda", "to tie"); ("sy", "to sew");
    ("räkna", "to count"); ("säga", "to say");
    ("sjunga", "to sing"); ("leka", "to play");
    ("flyta", "to float"); ("flöda", "to flow");
    ("frysa", "to freeze"); ("svälla", "to swell");
    ("sol", "sun"); ("måne", "moon");
    ("stjärna", "star"); ("vatten", "water");
    ("regn", "rain"); ("flod", "river");
    ("sjö", "lake"); ("hav", "sea");
    ("salt", "salt"); ("sten", "stone");
    ("sand", "sand"); ("stoft", "dust");
    ("jord", "earth"); ("moln", "cloud");
    ("dimma", "fog"); ("himmel", "sky");
    ("vind", "wind"); ("snö", "snow");
    ("is", "ice"); ("rök", "smoke");
    ("eld", "fire"); ("aska", "ash");
    ("bränna", "to burn"); ("väg", "road / path");
    ("berg", "mountain"); ("röd", "red");
    ("grön", "green"); ("gul", "yellow");
    ("vit", "white"); ("svart", "black");
    ("natt", "night"); ("dag", "day");
    ("år", "year"); ("varm", "warm");
    ("kall", "cold"); ("full", "full");
    ("ny", "new"); ("gammal", "old");
    ("god", "good"); ("dålig", "bad");
    ("rutten", "rotten"); ("smutsig", "dirty");
    ("rak", "straight"); ("rund", "round");
    ("vass", "sharp"); ("slö", "dull / lazy");
    ("slät", "smooth"); ("våt", "wet");
    ("torr", "dry"); ("rätt", "right / correct");
    ("nära", "near"); ("långt", "far (distance)");
    ("höger", "right (dir.)"); ("vänster", "left");
    ("vid", "at / by"); ("i", "in");
    ("med", "with"); ("och", "and");
    ("om", "if / about"); ("för", "for / because");
    ("namn", "name"); ("vara", "to be");
    ("ha", "to have"); ("bli", "to become");
    ("ska", "shall / will"); ("kan", "can");
    ("måste", "must"); ("ville", "wanted");
    ("skulle", "would"); ("hade", "had");
    ("är", "is / am / are"); ("blev", "became");
    ("finns", "exists / there is"); ("sig", "oneself");
    ("sin", "his/her (own)"); ("sitt", "his/her (own, n.)");
    ("sina", "his/her (own, pl.)"); ("min", "my");
    ("mitt", "my (neuter)"); ("din", "your");
    ("hans", "his"); ("hennes", "her");
    ("som", "who / which / that"); ("att", "to / that");
    ("av", "of / from"); ("på", "on / at");
    ("till", "to"); ("från", "from");
    ("ut", "out"); ("upp", "up");
    ("ner", "down"); ("över", "over");
    ("under", "under"); ("mellan", "between");
    ("efter", "after"); ("före", "before");
    ("genom", "through"); ("hos", "at (someone's)");
    ("mot", "towards / against"); ("utan", "without");
    ("också", "also"); ("redan", "already");
    ("bara", "only / just"); ("nog", "enough / probably");
    ("mycket", "much / very"); ("mer", "more");
    ("mest", "most"); ("sedan", "since / then");
    ("nu", "now"); ("aldrig", "never");
    ("alltid", "always"); ("ja", "yes");
    ("nej", "no") ].

Record entry := { sv : str; en : str; freq : Z }.

(** [results.sort(key=lambda x: x["freq"], reverse=True)].  Python's sort
    is stable, also under [reverse=True]: entries of equal frequency keep
    their order.  A stable sort has one possible result; it is computed
    here by insertion from the right. *)
Fixpoint insert_by_freq (x : entry) (l : list entry) : list entry :=
  match l with
  | [] => [x]
  | y :: l' =>
    if (freq x <? freq y)%Z then y :: insert_by_freq x l' else x :: y :: l'
  end.

Definition sort_by_freq_reverse (l : list entry) : list entry :=
  foldr insert_by_freq [] l.

(** The list [results] before it is sorted. *)
Definition swadesh_join (total_counter : gmap str Z) : list entry :=
  (λ kv, {| sv := kv.1; en := kv.2; freq := default 0%Z (total_counter !! kv.1) |})
  <$> SWADESH_SWEDISH.

Definition build_swadesh_data (total_counter : gmap str Z) : list entry :=
  sort_by_freq_reverse (swadesh_join total_counter).

(** ** Tier coverage *)

Definition TIER1_SIZE : nat := 50.
Definition TIER2_SIZE : nat := 100.

(** [sum(w["freq"] for w in data)]. *)
Definition freq_sum (data : list entry) : Z :=
  foldl (λ acc w, (acc + freq w)%Z) 0%Z data.

(** Rounding to the nearest integer, halves to the even neighbour. *)
Definition round_half_even (x : Q) : Z :=
  let f := Qfloor x in
  match (x - inject_Z f ?= 1 # 2)%Q with
  | Lt => f
  | Gt => (f + 1)%Z
  | Eq => if Z.even f then f else (f + 1)%Z
  end.

(** Powers of two. *)
Definition pow2 (e : Z) : Q := (2 ^ e)%Q.

(** The integer part of the binary logarithm of a positive rational. *)
Definition ilog2 (x : Q) : Z :=
  let k := (Z.log2 (Qnum x) - Z.log2 (Zpos (Qden x)))%Z in
  if Qle_bool (pow2 k) x then k else (k - 1)%Z.

(** The exponent of the last place of the binary64 numbers around [x]:
    53 significant bits, and never below the subnormal spacing. *)
Definition binary64_exponent (x : Q) : Z :=
  Z.max (ilog2 (Qabs x) - 52) (-1074).

(** Rounding to the nearest binary64 number, ties to even: what every
    float operation of Python does to its exact result.  Results of
    magnitude [2^1024] and more, where Python raises or returns an
    infinity, are outside this model. *)
Definition binary64 (x : Q) : Q :=
  if (Qnum x =? 0)%Z then 0%Q
  else
    let e := binary64_exponent x in
    (inject_Z (round_half_even (x / pow2 e)) * pow2 e)%Q.

(** [round(x, 1)] on a float: the exact value is rounded to one decimal,
    halves to even, and the decimal is converted back to a float. *)
Definition round1 (x : Q) : Q :=
  binary64 (inject_Z (round_half_even (x * 10)) / 10)%Q.

(** [count / total_words * 100]: the true division of two integers is
    the correctly rounded quotient, the product is a float product. *)
Definition percent (count total_words : Z) : Q :=
  binary64 (binary64 (inject_Z count / inject_Z total_words) * 100)%Q.

Record tier_coverage := { tier1 : Q; tier2 : Q; tier3 : Q }.

Definition compute_tier_coverage (swadesh_data : list entry) (total_words : Z)
  : tier_coverage :=
  if (total_words =? 0)%Z then {| tier1 := 0; tier2 := 0; tier3 := 0 |}
  else
    let t1 := percent (freq_sum (take TIER1_SIZE swadesh_data)) total_words in
    let t2 := percent (freq_sum (take (TIER2_SIZE - TIER1_SIZE)
                                      (drop TIER1_SIZE swadesh_data))) total_words in
    let t3 := percent (freq_sum (drop TIER2_SIZE swadesh_data)) total_words in
    {| tier1 := round1 t1; tier2 := round1 t2; tier3 := round1 t3 |}.

(** ** Notions used by the statements *)

(** How often [w] occurs in a list of words. *)
Definition occurrences (w : str) (ws : list str) : Z :=
  Z.of_nat (length (filter (λ x, x = w) ws)).

(** The word is on the stoplist and not on the allow-list. *)
Definition is_noise (w : str) : bool :=
  in_set w ENGLISH_STOPWORDS && negb (in_set w SHARED_WORDS).

(** The extension of the path has no handler. *)
Definition unsupported (filepath : str) : Prop :=
  lower (splitext filepath).2 ∉ HANDLERS.*1.

(** Every count of the counter is at least [n]. *)
Definition counts_at_least (n : Z) (counter : gmap str Z) : Prop :=
  ∀ k v, counter !! k = Some v → (n ≤ v)%Z.

(** Entries in descending order of frequency. *)
Definition freq_descending (l : list entry) : Prop :=
  StronglySorted (λ a b, (freq b ≤ freq a)%Z) l.

(** Sample inputs. *)

Definition two_headers : str :=
  join [10] [ py "*** START OF THIS PROJECT GUTENBERG EBOOK ONE ***";
              py "Första delen";
              py "*** START OF THIS PROJECT GUTENBERG EBOOK TWO ***";
              py "Andra delen" ].

Definition two_footers : str :=
  join [10] [ py "Sista raden";
              py "End of Project Gutenberg's first part";
              py "*** END OF THIS PROJECT GUTENBERG EBOOK ***" ].

Definition gutenberg_book : str :=
  join [10] [ py "The Project Gutenberg EBook of Röda rummet";
              py "*** START OF THIS PROJECT GUTENBERG EBOOK RÖDA RUMMET ***";
              py "Det var en afton i början av maj.";
              py "*** END OF THIS PROJECT GUTENBERG EBOOK RÖDA RUMMET ***";
              py "This file should be named 12345-8.txt" ].

(** A world with two short text files and nothing else. *)
Definition short_files : environment :=
  {| read_text := λ p,
       if bool_decide (p = py "books/kort.txt")
       then Some (join (py " ") (replicate 25 (py "hej")))
       else if bool_decide (p = py "books/lagom.txt")
       then Some (join (py " ") (replicate 25 (py "hej")) ++ py ".")
       else None;
     PDF_SUPPORT := false;
     pdf_pages := λ _, None;
     epub_entries := λ _, None |}.

(** The words of the vocabulary, each once, separated by spaces. *)
Definition swadesh_text : str := join (py " ") SWADESH_SWEDISH.*1.

(** ** File discovery *)

Definition LEGACY_BOOKS_DIR : str := py "swedish_books".

(** [os.path.join(a, b)] (posixpath). *)
Definition path_join (a b : str) : str :=
  if startswith b [47] then b
  else if bool_decide (a = []) || endswith a [47] then a ++ b
  else a ++ [47] ++ b.

(** The order of Python on strings: lexicographic on code points. *)
Fixpoint str_le (a b : str) : bool :=
  match a, b with
  | [], _ => true
  | _ :: _, [] => false
  | x :: a', y :: b' =>
    if x <? y then true else if y <? x then false else str_le a' b'
  end.

Fixpoint insert_str (x : str) (l : list str) : list str :=
  match l with
  | [] => [x]
  | y :: l' => if str_le x y then x :: l else y :: insert_str x l'
  end.

(** [sorted(files)] on a list of strings. *)
Definition sorted (files : list str) : list str := foldr insert_str [] files.

(** What the directories hold.
    - [walk]: for [os.walk(books_dir)], the pairs of a directory and the
      names of the files in it;
    - [legacy_listing]: [os.listdir(LEGACY_BOOKS_DIR)], or [None] when
      [os.path.isdir(LEGACY_BOOKS_DIR)] is false. *)
Record directories := {
  walk : str → list (str * list str);
  legacy_listing : option (list str);
}.

(** [os.path.splitext(name)[1].lower() in HANDLERS]. *)
Definition has_handler (name : str) : bool :=
  bool_decide (lower (splitext name).2 ∈ HANDLERS.*1).

Definition collect_files (dirs : directories) (books_dir : str)
    (include_legacy : bool) : list str :=
  let files :=
    flat_map (λ d, path_join d.1 <$> filter (λ name, has_handler name = true) d.2)
             (walk dirs books_dir) in
  let files :=
    match include_legacy, legacy_listing dirs with
    | true, Some names =>
      files ++ (path_join LEGACY_BOOKS_DIR
                <$> filter (λ name, has_handler name = true) names)
    | _, _ => files
    end in
  sorted files.

(** ** Further notions used by the statements *)

(** The lower-case letters of the class of [_WORD_RE]. *)
Definition LOWER_CLASS : list N := char_range 97 122 ++ py "åäöéèüæø".

Definition is_lower_word_char (c : N) : bool := bool_decide (c ∈ LOWER_CLASS).

(** The sum of the word counts of a list of statistics. *)
Definition stats_total (stats : list (str * Z)) : Z :=
  foldr (λ s acc, (s.2 + acc)%Z) 0%Z stats.

(** The statistics entry of a result, when it has one. *)
Definition result_stat (result : option (gmap str Z * str)) : option (str * Z) :=
  (λ r, (basename r.2, values_sum r.1)) <$> result.

(** The count of [w] summed over the results that carry a mapping. *)
Definition word_total (w : str) (results : list (option (gmap str Z * str))) : Z :=
  foldr (λ result acc,
           (match result with
            | Some (sub_counter, _) => default 0 (sub_counter !! w)
            | None => 0
            end + acc)%Z) 0%Z results.

(** A directory tree with two books, a note and a hidden file. *)
Definition sample_dirs : directories :=
  {| walk := λ d,
       if bool_decide (d = py "books")
       then [ (py "books", [py "b.txt"; py "notes.docx"; py ".epub"]);
              (py "books/sagor", [py "A.EPUB"; py "omslag.jpg"]) ]
       else [];
     legacy_listing := Some [py "gammal.pdf"; py "README"] |}.

(** A world without PyMuPDF holding one EPUB book. *)
Definition sample_epub : environment :=
  {| read_text := λ _, None;
     PDF_SUPPORT := false;
     pdf_pages := λ _, Some [py "Det var en gång"];
     epub_entries := λ p,
       if bool_decide (p = py "books/saga.epub")
       then Some [ (py "mimetype", [py "application/epub+zip"]);
                   (py "OEBPS/kap1.xhtml", [py "Hej"; py "igen"]);
                   (py "OEBPS/kap2.HTML", [py "Hej"; py "då"]) ]
       else None |}.

(** * Properties *)

(** ** Boilerplate stripping *)

Lemma find_Some_lt sub text idx :
  sub ≠ [] → find sub text = Some idx → (idx < length text)%nat.
Proof.
  intros Hsub. revert idx.
  induction text as [|c rest IH]; intros idx; cbn [find].
  - destruct sub; [done|]. cbn. discriminate.
  - destruct (startswith (c :: rest) sub).
    + intros [= <-]. cbn. lia.
    + destruct (find sub rest) as [i|]; [|discriminate].
      intros [= <-]. specialize (IH i eq_refl). cbn. lia.
Qed.

Lemma first_marker_lt markers text idx :
  Forall (λ m, m ≠ []) markers →
  first_marker markers text = Some idx → (idx < length text)%nat.
Proof.
  induction 1 as [|m markers Hm _ IH]; cbn [first_marker]; [discriminate|].
  destruct (find m text) as [i|] eqn:Hfind; [|exact IH].
  intros [= <-]. by apply (find_Some_lt m).
Qed.

Lemma find_from_lt sub text start nl :
  sub ≠ [] → find_from sub text start = Some nl → (nl < length text)%nat.
Proof.
  intros Hsub. unfold find_from.
  destruct (find sub (drop start text)) as [k|] eqn:Hfind; [|discriminate].
  intros [= <-]. apply (find_Some_lt sub _ k Hsub) in Hfind.
  rewrite length_drop in Hfind. lia.
Qed.

Lemma START_MARKERS_nonempty : Forall (λ m, m ≠ []) _START_MARKERS.
Proof. repeat constructor; discriminate. Qed.

Lemma END_MARKERS_nonempty : Forall (λ m, m ≠ []) _END_MARKERS.
Proof. repeat constructor; discriminate. Qed.

(** Each loop either leaves the text as it is or makes it shorter. *)

Lemma strip_start_cases text :
  (start_inert text ∧ strip_start text = text)
  ∨ (length (strip_start text) < length text)%nat.
Proof.
  unfold start_inert, strip_start.
  destruct (first_marker _START_MARKERS text) as [idx|]; [|by left].
  destruct (find_from [10] text idx) as [nl|] eqn:Hnl; [|by left].
  right. apply find_from_lt in Hnl; [|discriminate].
  rewrite length_drop. lia.
Qed.

Lemma strip_end_cases text :
  (first_marker _END_MARKERS text = None ∧ strip_end text = text)
  ∨ (length (strip_end text) < length text)%nat.
Proof.
  unfold strip_end.
  destruct (first_marker _END_MARKERS text) as [idx|] eqn:Hidx; [|by left].
  right. apply first_marker_lt in Hidx; [|apply END_MARKERS_nonempty].
  rewrite length_take. lia.
Qed.

Lemma strip_nothing text :
  nothing_to_strip text → strip_gutenberg_boilerplate text = text.
Proof.
  intros [Hs He]. unfold start_inert in Hs.
  unfold strip_gutenberg_boilerplate, strip_start.
  destruct (first_marker _START_MARKERS text) as [idx|].
  - rewrite Hs. unfold strip_end. by rewrite He.
  - unfold strip_end. by rewrite He.
Qed.

Lemma strip_fixed_point text :
  strip_gutenberg_boilerplate text = text ↔ nothing_to_strip text.
Proof.
  split; [|apply strip_nothing].
  unfold strip_gutenberg_boilerplate. intros Hfix.
  destruct (strip_start_cases text) as [[Hinert Hstart]|Hshort].
  - rewrite Hstart in Hfix.
    destruct (strip_end_cases text) as [[Hend _]|Hshort]; [done|].
    rewrite Hfix in Hshort. lia.
  - assert (length (strip_end (strip_start text)) ≤ length (strip_start text))%nat.
    { destruct (strip_end_cases (strip_start text)) as [[_ ->]|?]; lia. }
    rewrite Hfix in H. lia.
Qed.

Lemma marker_free_nothing_to_strip text :
  marker_free text → nothing_to_strip text.
Proof.
  intros [Hs He]. split; [|exact He]. unfold start_inert. by rewrite Hs.
Qed.

(** C5, as stated, fails: a text with two header lines loses one header
    at each application, and a text with a low-priority footer before a
    high-priority one loses one footer at each application. *)
Lemma strip_not_idempotent :
  strip_gutenberg_boilerplate (strip_gutenberg_boilerplate two_headers)
    ≠ strip_gutenberg_boilerplate two_headers
  ∧ strip_gutenberg_boilerplate (strip_gutenberg_boilerplate two_footers)
    ≠ strip_gutenberg_boilerplate two_footers.
Proof. split; vm_compute; discriminate. Qed.

(** C5 (amended): stripping a stripped text changes nothing exactly when
    the stripped text has nothing left to cut: no end marker occurs in
    it, and no start marker occurs in it or the one the scan picks has no
    line break after it.  This is so in particular when the stripped
    text contains no marker at all. *)
Theorem strip_idempotent_iff text :
  (strip_gutenberg_boilerplate (strip_gutenberg_boilerplate text)
   = strip_gutenberg_boilerplate text
   ↔ nothing_to_strip (strip_gutenberg_boilerplate text))
  ∧ (marker_free (strip_gutenberg_boilerplate text) →
     strip_gutenberg_boilerplate (strip_gutenberg_boilerplate text)
     = strip_gutenberg_boilerplate text).
Proof.
  split; [apply strip_fixed_point|].
  intros H. by apply strip_fixed_point, marker_free_nothing_to_strip.
Qed.

Lemma strip_idempotent_iff_witness :
  strip_gutenberg_boilerplate gutenberg_book
    = py "Det var en afton i början av maj." ++ [10]
  ∧ strip_gutenberg_boilerplate (strip_gutenberg_boilerplate gutenberg_book)
    = strip_gutenberg_boilerplate gutenberg_book.
Proof.
  split; [vm_compute; reflexivity|].
  apply (proj2 (strip_idempotent_iff gutenberg_book)).
  split; vm_compute; reflexivity.
Defined.

(** ** The tokenizer *)

Lemma count_word_keeps counter w :
  count_word counter w =
  if keeps w then <[w := (default 0 (counter !! w) + 1)%Z]> counter else counter.
Proof.
  unfold count_word, keeps.
  destruct ((length w <? 1)%nat || (40 <? length w)%nat); [done|].
  by destruct (in_set w ENGLISH_STOPWORDS && negb (in_set w SHARED_WORDS)).
Qed.

Lemma occurrences_nil w : occurrences w [] = 0%Z.
Proof. done. Qed.

Lemma occurrences_cons w a ws :
  occurrences w (a :: ws)
  = ((if decide (a = w) then 1 else 0) + occurrences w ws)%Z.
Proof.
  unfold occurrences. rewrite filter_cons.
  destruct (decide (a = w)).
  - cbn [length]. rewrite Nat2Z.inj_succ, Z.add_1_l. reflexivity.
  - rewrite Z.add_0_l. reflexivity.
Qed.

Lemma occurrences_nonneg w ws : (0 ≤ occurrences w ws)%Z.
Proof. unfold occurrences. lia. Qed.

Lemma occurrences_elem_of w ws : w ∈ ws → (1 ≤ occurrences w ws)%Z.
Proof.
  induction 1 as [w ws|w a ws _ IH]; rewrite occurrences_cons.
  - rewrite decide_True by done. pose proof (occurrences_nonneg w ws). lia.
  - destruct (decide (a = w)); lia.
Qed.

Lemma occurrences_replicate w a n :
  occurrences w (replicate n a) = if decide (a = w) then Z.of_nat n else 0%Z.
Proof.
  induction n as [|n IH]; simpl.
  - rewrite occurrences_nil. by destruct (decide (a = w)).
  - rewrite occurrences_cons, IH. destruct (decide (a = w)); lia.
Qed.

(** What the loop of the tokenizer leaves under a key: the words that
    pass the filters are counted, the others leave no trace. *)
Lemma foldl_count_word_lookup ws counter w :
  foldl count_word counter ws !! w =
  if keeps w && bool_decide (0 < occurrences w ws)%Z
  then Some (default 0 (counter !! w) + occurrences w ws)%Z
  else counter !! w.
Proof.
  revert counter. induction ws as [|a ws IH]; intros counter.
  - simpl. rewrite occurrences_nil, andb_false_r. done.
  - cbn [foldl]. rewrite IH, occurrences_cons, count_word_keeps.
    pose proof (occurrences_nonneg w ws) as Hn.
    destruct (decide (a = w)) as [->|Hne].
    + destruct (keeps w) eqn:Hk; cbn [andb].
      * rewrite lookup_insert_eq. cbn [default].
        rewrite (bool_decide_eq_true_2 (0 < 1 + _)%Z) by lia.
        unfold id. case_bool_decide; apply (f_equal (@Some Z)); lia.
      * done.
    + rewrite Z.add_0_l.
      destruct (keeps a); [|done].
      by rewrite lookup_insert_ne.
Qed.

Lemma tokenize_lookup text w :
  tokenize_and_count text !! w =
  let n := occurrences w (_WORD_RE_findall (lower text)) in
  if keeps w && bool_decide (0 < n)%Z then Some n else None.
Proof.
  unfold tokenize_and_count. rewrite foldl_count_word_lookup, lookup_empty.
  cbn [default]. by rewrite Z.add_0_l.
Qed.

(** Facts about single characters, checked over the two finite classes. *)

Lemma class_forall (P : N → bool) (class : list N) c :
  forallb P class = true → c ∈ class → P c = true.
Proof.
  intros HP Hc. rewrite forallb_forall in HP.
  apply HP. by apply list_elem_of_In.
Qed.

Lemma forallb_Forall (P : N → bool) (class : list N) :
  forallb P class = true → Forall (λ c, P c = true) class.
Proof.
  intros HP. apply Forall_forall. intros c Hc. by apply (class_forall P class).
Qed.

Lemma word_char_lower c :
  is_word_char c = true →
  ∃ c', lower_char c = [c'] ∧ is_word_char c' = true.
Proof.
  intros Hc. apply bool_decide_eq_true in Hc.
  pose proof (class_forall
    (λ c, match lower_char c with [c'] => is_word_char c' | _ => false end)
    _WORD_RE_class c eq_refl Hc) as H.
  cbv beta in H.
  destruct (lower_char c) as [|c' [|]]; try discriminate. eauto.
Qed.

Lemma isspace_lower c :
  isspace c = true → lower_char c = [c] ∧ is_word_char c = false.
Proof.
  intros Hc. apply bool_decide_eq_true in Hc.
  pose proof (class_forall
    (λ c, bool_decide (lower_char c = [c]) && negb (is_word_char c))
    WHITESPACE c eq_refl Hc) as H.
  cbv beta in H. apply andb_true_iff in H as [H1 H2].
  apply bool_decide_eq_true in H1. apply negb_true_iff in H2. done.
Qed.

Lemma lower_app s1 s2 : lower (s1 ++ s2) = lower s1 ++ lower s2.
Proof. unfold lower. apply flat_map_app. Qed.

Lemma lower_join sep parts :
  lower (join sep parts) = join (lower sep) (lower <$> parts).
Proof.
  induction parts as [|p [|q parts] IH]; [done..|].
  change (join sep (p :: q :: parts)) with (p ++ sep ++ join sep (q :: parts)).
  rewrite !lower_app, IH. done.
Qed.

Lemma lower_word w :
  Forall (λ c, is_word_char c = true) w →
  Forall (λ c, is_word_char c = true) (lower w) ∧ length (lower w) = length w.
Proof.
  induction 1 as [|c w Hc _ [IH1 IH2]]; [done|].
  destruct (word_char_lower c Hc) as (c' & Hl & Hc').
  unfold lower in *. cbn [flat_map]. rewrite Hl. cbn [app length].
  split; [by constructor | by f_equal].
Qed.

Lemma lower_whitespace sep :
  Forall (λ c, isspace c = true) sep →
  lower sep = sep ∧ Forall (λ c, is_word_char c = false) sep.
Proof.
  induction 1 as [|c sep Hc _ [IH1 IH2]]; [done|].
  destruct (isspace_lower c Hc) as [Hl Hw].
  unfold lower in *. cbn [flat_map]. rewrite Hl, IH1.
  split; [done | by constructor].
Qed.

(** Runs and gaps of the scan. *)

Lemma findall_from_run cur run rest :
  Forall (λ c, is_word_char c = true) run →
  findall_from cur (run ++ rest) = findall_from (cur ++ run) rest.
Proof.
  intros Hrun. revert cur.
  induction Hrun as [|c run Hc _ IH]; intros cur.
  - by rewrite app_nil_r.
  - cbn [app findall_from]. rewrite Hc, IH, <- app_assoc. done.
Qed.

Lemma findall_from_skip gap rest :
  Forall (λ c, is_word_char c = false) gap →
  findall_from [] (gap ++ rest) = findall_from [] rest.
Proof.
  induction 1 as [|c gap Hc _ IH]; [done|].
  cbn [app findall_from]. by rewrite Hc.
Qed.

Lemma findall_from_gap cur gap rest :
  Forall (λ c, is_word_char c = false) gap → gap ≠ [] →
  findall_from cur (gap ++ rest)
  = match cur with [] => [] | _ => [cur] end ++ findall_from [] rest.
Proof.
  intros Hgap Hne.
  destruct Hgap as [|c gap Hc Hgap]; [done|].
  cbn [app findall_from]. rewrite Hc.
  pose proof (findall_from_skip gap rest Hgap) as Hskip.
  destruct cur; by rewrite Hskip.
Qed.

Lemma findall_repeated w sep n :
  Forall (λ c, is_word_char c = true) w → w ≠ [] →
  Forall (λ c, is_word_char c = false) sep → sep ≠ [] →
  _WORD_RE_findall (join sep (replicate (S n) w)) = replicate (S n) w.
Proof.
  intros Hw Hwne Hsep Hsne. unfold _WORD_RE_findall.
  induction n as [|n IH].
  - cbn [replicate join].
    rewrite <- (app_nil_r w) at 1. rewrite findall_from_run by done.
    cbn. by destruct w.
  - change (join sep (replicate (S (S n)) w))
      with (w ++ sep ++ join sep (replicate (S n) w)).
    rewrite findall_from_run by done.
    rewrite findall_from_gap by done.
    rewrite IH. cbn [app]. by destruct w.
Qed.

(** C3, as stated, fails on a stoplist word, which is dropped, and on a
    word with a capital, which is counted under its lower-case form. *)
Lemma tokenize_repeated_token_fails :
  (Forall (λ c, is_word_char c = true) (py "the")
   ∧ (1 ≤ length (py "the") ≤ 40)%nat
   ∧ tokenize_and_count (join (py " ") (replicate 3 (py "the"))) = ∅
   ∧ tokenize_and_count (join (py " ") (replicate 3 (py "the")))
     ≠ {[ py "the" := 3%Z ]})
  ∧ (Forall (λ c, is_word_char c = true) (py "Jag")
     ∧ (1 ≤ length (py "Jag") ≤ 40)%nat
     ∧ tokenize_and_count (join (py " ") (replicate 3 (py "Jag")))
       = {[ py "jag" := 3%Z ]}
     ∧ tokenize_and_count (join (py " ") (replicate 3 (py "Jag")))
       ≠ {[ py "Jag" := 3%Z ]}).
Proof.
  split; (split; [|split; [|split]]).
  - apply forallb_Forall. vm_compute. reflexivity.
  - vm_compute. lia.
  - vm_compute. reflexivity.
  - replace (tokenize_and_count (join (py " ") (replicate 3 (py "the"))))
      with (∅ : gmap str Z) by (vm_compute; reflexivity).
    intros E. apply (f_equal (λ m : gmap str Z, m !! py "the")) in E.
    rewrite lookup_empty, lookup_singleton_eq in E. discriminate.
  - apply forallb_Forall. vm_compute. reflexivity.
  - vm_compute. lia.
  - vm_compute. reflexivity.
  - replace (tokenize_and_count (join (py " ") (replicate 3 (py "Jag"))))
      with ({[ py "jag" := 3%Z ]} : gmap str Z) by (vm_compute; reflexivity).
    intros E. apply (f_equal (λ m : gmap str Z, m !! py "Jag")) in E.
    rewrite lookup_singleton_eq, lookup_singleton_ne in E; [discriminate|].
    apply (bool_decide_eq_false_1 _). vm_compute. reflexivity.
Qed.

(** C3 (amended): for a word [w] of one to forty letters of the class and
    [n >= 1], the text made of [n] copies of [w] separated by whitespace
    tokenizes to the one key [lower w] with count [n], unless [lower w]
    is a stoplist word outside the allow-list, when the mapping is empty. *)
Theorem tokenize_repeated_token (w sep : str) (n : nat) :
  Forall (λ c, is_word_char c = true) w →
  (1 ≤ length w ≤ 40)%nat →
  (1 ≤ n)%nat →
  Forall (λ c, isspace c = true) sep → sep ≠ [] →
  tokenize_and_count (join sep (replicate n w)) =
  if is_noise (lower w) then ∅ else {[ lower w := Z.of_nat n ]}.
Proof.
  intros Hw Hlen Hn Hsep Hsne.
  destruct (lower_word w Hw) as [Hlw Hllen].
  destruct (lower_whitespace sep Hsep) as [Hlsep Hgap].
  destruct n as [|n]; [lia|].
  assert (Hruns : _WORD_RE_findall (lower (join sep (replicate (S n) w)))
                  = replicate (S n) (lower w)).
  { rewrite lower_join, Hlsep, fmap_replicate.
    apply findall_repeated; try done.
    intros E. rewrite E in Hllen. simpl in Hllen. lia. }
  assert (Hkeeps : keeps (lower w) = negb (is_noise (lower w))).
  { unfold keeps, is_noise. rewrite Hllen.
    replace ((length w <? 1)%nat) with false by (symmetry; apply Nat.ltb_ge; lia).
    replace ((40 <? length w)%nat) with false by (symmetry; apply Nat.ltb_ge; lia).
    reflexivity. }
  apply map_eq. intros k.
  rewrite tokenize_lookup. cbv zeta. rewrite Hruns, occurrences_replicate.
  destruct (decide (lower w = k)) as [<-|Hne].
  - rewrite Hkeeps. destruct (is_noise (lower w)); cbn [negb andb].
    + by rewrite lookup_empty.
    + rewrite bool_decide_eq_true_2 by lia. by rewrite lookup_singleton_eq.
  - rewrite (bool_decide_eq_false_2 (0 < 0)%Z) by lia. rewrite andb_false_r.
    destruct (is_noise (lower w)).
    + by rewrite lookup_empty.
    + by rewrite lookup_singleton_ne.
Qed.

Lemma tokenize_repeated_token_witness :
  tokenize_and_count (join (py " ") (replicate 4 (py "Människa")))
  = {[ py "människa" := 4%Z ]}.
Proof.
  rewrite (tokenize_repeated_token (py "Människa") (py " ") 4).
  - vm_compute. reflexivity.
  - apply forallb_Forall. vm_compute. reflexivity.
  - vm_compute. split; lia.
  - lia.
  - apply forallb_Forall. vm_compute. reflexivity.
  - discriminate.
Defined.

(** ** The stoplist and the allow-list *)

Lemma list_forallb {A} (P : A → bool) (l : list A) x :
  forallb P l = true → x ∈ l → P x = true.
Proof.
  intros HP Hx. rewrite forallb_forall in HP.
  apply HP. by apply list_elem_of_In.
Qed.

Lemma in_set_true (w : str) (words : gset str) : w ∈ words → in_set w words = true.
Proof. apply bool_decide_eq_true_2. Qed.

Lemma in_set_false (w : str) (words : gset str) : w ∉ words → in_set w words = false.
Proof. apply bool_decide_eq_false_2. Qed.

Lemma in_set_elem_of (w : str) (words : gset str) : in_set w words = true → w ∈ words.
Proof. apply bool_decide_eq_true_1. Qed.

Lemma in_set_not_elem_of (w : str) (words : gset str) : in_set w words = false → w ∉ words.
Proof. apply bool_decide_eq_false_1. Qed.

Lemma stopword_length w :
  w ∈ ENGLISH_STOPWORDS → (1 ≤ length w ≤ 40)%nat.
Proof.
  unfold ENGLISH_STOPWORDS. intros Hw. apply elem_of_list_to_set in Hw.
  assert (H : (1 <=? length w)%nat && (length w <=? 40)%nat = true).
  { revert Hw. apply (list_forallb (λ w, (1 <=? length w)%nat && (length w <=? 40)%nat)).
    vm_compute. reflexivity. } apply andb_true_iff in H as [H1 H2].
  apply Nat.leb_le in H1, H2. lia.
Qed.

Lemma keeps_shared_stopword w :
  w ∈ ENGLISH_STOPWORDS → w ∈ SHARED_WORDS → keeps w = true.
Proof.
  intros Hs Ha. pose proof (stopword_length w Hs) as Hlen.
  unfold keeps.
  replace ((length w <? 1)%nat) with false by (symmetry; apply Nat.ltb_ge; lia).
  replace ((40 <? length w)%nat) with false by (symmetry; apply Nat.ltb_ge; lia).
  rewrite (in_set_true _ _ Ha).
  cbn [orb negb]. by destruct (in_set w ENGLISH_STOPWORDS).
Qed.

Lemma keeps_noise w :
  w ∈ ENGLISH_STOPWORDS → w ∉ SHARED_WORDS → keeps w = false.
Proof.
  intros Hs Ha. unfold keeps.
  rewrite (in_set_true _ _ Hs), (in_set_false _ _ Ha).
  cbn [negb andb]. apply andb_false_r.
Qed.

(** C4: a run of the lower-cased text that is on the stoplist is counted
    (once per occurrence) when it is also on the allow-list, and is no
    key of the mapping when it is not; the mapping depends on the text
    only through its lower-case form, so the letter case of the input
    plays no part. *)
Theorem stoplist_policy (text w : str) :
  w ∈ _WORD_RE_findall (lower text) →
  w ∈ ENGLISH_STOPWORDS →
  (w ∈ SHARED_WORDS →
     tokenize_and_count text !! w
       = Some (occurrences w (_WORD_RE_findall (lower text)))
     ∧ (1 ≤ occurrences w (_WORD_RE_findall (lower text)))%Z)
  ∧ (w ∉ SHARED_WORDS → tokenize_and_count text !! w = None)
  ∧ (∀ text', lower text' = lower text →
       tokenize_and_count text' = tokenize_and_count text).
Proof.
  intros Hrun Hstop. split; [|split].
  - intros Hshared.
    pose proof (occurrences_elem_of _ _ Hrun) as Hocc.
    split; [|exact Hocc].
    rewrite tokenize_lookup. cbv zeta.
    rewrite (keeps_shared_stopword w Hstop Hshared).
    rewrite bool_decide_eq_true_2 by lia. done.
  - intros Hshared. rewrite tokenize_lookup. cbv zeta.
    by rewrite (keeps_noise w Hstop Hshared).
  - intros text' Heq. unfold tokenize_and_count. by rewrite Heq.
Qed.

Lemma stoplist_policy_witness :
  let text := py "In the END it IS all in vain" in
  tokenize_and_count text !! py "in" = Some 2%Z
  ∧ tokenize_and_count text !! py "the" = None
  ∧ tokenize_and_count (py "IN THE end IT is ALL IN VAIN") = tokenize_and_count text.
Proof.
  intros text.
  assert (Hin : py "in" ∈ _WORD_RE_findall (lower text))
    by (apply (bool_decide_eq_true_1 _); vm_compute; reflexivity).
  assert (Hthe : py "the" ∈ _WORD_RE_findall (lower text))
    by (apply (bool_decide_eq_true_1 _); vm_compute; reflexivity).
  assert (Hin_stop : py "in" ∈ ENGLISH_STOPWORDS)
    by (apply in_set_elem_of; vm_compute; reflexivity).
  assert (Hthe_stop : py "the" ∈ ENGLISH_STOPWORDS)
    by (apply in_set_elem_of; vm_compute; reflexivity).
  assert (Hin_shared : py "in" ∈ SHARED_WORDS)
    by (apply in_set_elem_of; vm_compute; reflexivity).
  assert (Hthe_shared : py "the" ∉ SHARED_WORDS)
    by (apply in_set_not_elem_of; vm_compute; reflexivity).
  destruct (stoplist_policy text (py "in") Hin Hin_stop) as (Hkept & _ & Hcase).
  destruct (stoplist_policy text (py "the") Hthe Hthe_stop) as (_ & Hdropped & _).
  split; [|split].
  - destruct (Hkept Hin_shared) as [-> _]. vm_compute. reflexivity.
  - exact (Hdropped Hthe_shared).
  - apply Hcase. vm_compute. reflexivity.
Defined.

(** ** Counters *)

Lemma lookup_Counter_update self other k :
  Counter_update self other !! k =
  match other !! k with
  | Some count => Some (count + default 0 (self !! k))%Z
  | None => self !! k
  end.
Proof.
  unfold Counter_update. revert k.
  apply (map_fold_weak_ind (λ r (m : gmap str Z), ∀ k,
    r !! k = match m !! k with
             | Some count => Some (count + default 0 (self !! k))%Z
             | None => self !! k
             end)).
  - intros k. by rewrite lookup_empty.
  - intros i x m r Hi IH k.
    destruct (decide (i = k)) as [->|Hne].
    + rewrite !lookup_insert_eq. by rewrite (IH k), Hi.
    + rewrite !lookup_insert_ne by done. apply IH.
Qed.

Lemma Counter_update_comm (a b : gmap str Z) :
  Counter_update a b = Counter_update b a.
Proof.
  apply map_eq. intros k. rewrite !lookup_Counter_update.
  destruct (a !! k), (b !! k); cbn; try done; f_equal; lia.
Qed.

Lemma Counter_update_assoc (a b c : gmap str Z) :
  Counter_update (Counter_update a b) c = Counter_update a (Counter_update b c).
Proof.
  apply map_eq. intros k. rewrite !lookup_Counter_update.
  destruct (a !! k), (b !! k), (c !! k); cbn; try done; f_equal; lia.
Qed.

Lemma Counter_update_swap (a b c : gmap str Z) :
  Counter_update (Counter_update a b) c = Counter_update (Counter_update a c) b.
Proof.
  rewrite !Counter_update_assoc. f_equal. apply Counter_update_comm.
Qed.

Lemma counts_at_least_empty n : counts_at_least n ∅.
Proof. intros k v. by rewrite lookup_empty. Qed.

Lemma Counter_update_at_least self other :
  counts_at_least 1 self → counts_at_least 1 other →
  counts_at_least 1 (Counter_update self other).
Proof.
  intros Hs Ho k v. rewrite lookup_Counter_update.
  destruct (other !! k) as [count|] eqn:Hk.
  - intros [= <-]. specialize (Ho k count Hk).
    destruct (self !! k) as [x|] eqn:Hx; cbn.
    + specialize (Hs k x Hx). lia.
    + lia.
  - apply Hs.
Qed.

Lemma tokenize_at_least text : counts_at_least 1 (tokenize_and_count text).
Proof.
  intros k v. rewrite tokenize_lookup. cbv zeta.
  destruct (keeps k); cbn [andb]; [|done].
  case_bool_decide; [|done]. intros [= <-]. lia.
Qed.

(** ** The worker and the reduction *)

Lemma HANDLERS_get_None ext : ext ∉ HANDLERS.*1 → HANDLERS_get ext = None.
Proof.
  intros Hext. unfold HANDLERS_get, HANDLERS in *. cbn in Hext.
  cbn [list_find fmap option_fmap option_map HANDLERS].
  repeat (case_decide; [subst; exfalso; apply Hext; set_solver|]).
  done.
Qed.

Lemma process_unsupported env filepath :
  unsupported filepath → process_single_file env filepath = None.
Proof.
  intros H. unfold process_single_file, extract_text.
  by rewrite (HANDLERS_get_None _ H).
Qed.

Lemma collect_total_counter_perm st st' rs rs' :
  total_counter st = total_counter st' → rs ≡ₚ rs' →
  total_counter (foldl collect st rs) = total_counter (foldl collect st' rs').
Proof.
  intros Hst Hperm. revert st st' Hst.
  induction Hperm as [|x rs rs' _ IH|x y rs|rs1 rs2 rs3 _ IH1 _ IH2];
    intros st st' Hst.
  - done.
  - cbn [foldl]. apply IH. destruct x as [[sub fp]|]; cbn; by rewrite ?Hst.
  - cbn [foldl].
    assert (Heq : ∀ rs st1 st2, total_counter st1 = total_counter st2 →
              total_counter (foldl collect st1 rs) = total_counter (foldl collect st2 rs)).
    { clear. intros rs. induction rs as [|r rs IH]; intros st1 st2 H; [done|].
      cbn [foldl]. apply IH. destruct r as [[sub fp]|]; cbn; by rewrite ?H. }
    apply Heq.
    destruct x as [[subx fpx]|], y as [[suby fpy]|]; cbn; rewrite ?Hst; try done.
    apply Counter_update_swap.
  - etrans; [apply (IH1 st st' Hst)|]. by apply IH2.
Qed.

Lemma collect_n_failed_perm st st' rs rs' :
  n_failed st = n_failed st' → rs ≡ₚ rs' →
  n_failed (foldl collect st rs) = n_failed (foldl collect st' rs').
Proof.
  intros Hst Hperm. revert st st' Hst.
  induction Hperm as [|x rs rs' _ IH|x y rs|rs1 rs2 rs3 _ IH1 _ IH2];
    intros st st' Hst.
  - done.
  - cbn [foldl]. apply IH. destruct x as [[sub fp]|]; cbn; by rewrite ?Hst.
  - cbn [foldl].
    assert (Heq : ∀ rs st1 st2, n_failed st1 = n_failed st2 →
              n_failed (foldl collect st1 rs) = n_failed (foldl collect st2 rs)).
    { clear. intros rs. induction rs as [|r rs IH]; intros st1 st2 H; [done|].
      cbn [foldl]. apply IH. destruct r as [[sub fp]|]; cbn; by rewrite ?H. }
    apply Heq.
    destruct x as [[subx fpx]|], y as [[suby fpy]|]; cbn; rewrite ?Hst; done.
  - etrans; [apply (IH1 st st' Hst)|]. by apply IH2.
Qed.

Lemma collect_at_least st rs :
  counts_at_least 1 (total_counter st) →
  (∀ sub fp, Some (sub, fp) ∈ rs → counts_at_least 1 sub) →
  counts_at_least 1 (total_counter (foldl collect st rs)).
Proof.
  revert st. induction rs as [|r rs IH]; intros st Hst Hrs; [done|].
  cbn [foldl]. apply IH.
  - destruct r as [[sub fp]|]; cbn; [|done].
    apply Counter_update_at_least; [done|].
    apply (Hrs sub fp). left.
  - intros sub fp Hin. apply (Hrs sub fp). by right.
Qed.

Lemma process_single_file_at_least env filepath sub fp :
  process_single_file env filepath = Some (sub, fp) → counts_at_least 1 sub.
Proof.
  unfold process_single_file.
  destruct (extract_text env filepath) as [text|]; [|done].
  destruct (bool_decide (text = []) || (length text <? 100)%nat); [done|].
  intros [= <- <-]. apply tokenize_at_least.
Qed.

(** C1, as stated, fails: a file with an unknown extension gets a null
    result, and the loop counts every null result in [n_failed]; there is
    no other bucket.  With the one file [books/notes.docx] the run reports
    one failure. *)
Lemma unsupported_counted_as_failure :
  let filepath := py "books/notes.docx" in
  let result := process_single_file short_files filepath in
  unsupported filepath
  ∧ result = None
  ∧ imap_unordered (process_single_file short_files) [filepath] [result]
  ∧ build_frequency_counter [filepath] [result] = (∅, [], 1%Z).
Proof.
  intros filepath result. split; [|split; [|split]].
  - apply (bool_decide_eq_false_1 _). vm_compute. reflexivity.
  - vm_compute. reflexivity.
  - unfold imap_unordered. reflexivity.
  - vm_compute. reflexivity.
Qed.

(** C1 (amended): for a file whose extension has no handler the worker
    returns a null result, and the reduction counts it as a failure:
    [n_failed] grows by one, the corpus counter and the statistics stay
    as they are. *)
Theorem unsupported_is_null_and_failed env filepath st :
  unsupported filepath →
  process_single_file env filepath = None
  ∧ collect st (process_single_file env filepath) =
      {| total_counter := total_counter st;
         n_done := n_done st + 1;
         n_failed := n_failed st + 1;
         book_stats := book_stats st |}.
Proof.
  intros H. rewrite (process_unsupported env filepath H). done.
Qed.

Lemma unsupported_is_null_and_failed_witness :
  process_single_file short_files (py "books/notes.docx") = None
  ∧ n_failed (collect progress_start
                (process_single_file short_files (py "books/notes.docx"))) = 1%Z.
Proof.
  assert (H : unsupported (py "books/notes.docx"))
    by (apply (bool_decide_eq_false_1 _); vm_compute; reflexivity).
  destruct (unsupported_is_null_and_failed short_files (py "books/notes.docx")
              progress_start H) as [Hnull Hstep].
  split; [exact Hnull|]. rewrite Hstep. reflexivity.
Defined.

(** C2: merging counters by [Counter.update] is commutative and
    associative (for all counters, so in particular for those with
    non-negative counts), and the corpus counter and the failure count
    of a run are the same for every order in which the results arrive. *)
Theorem merge_order_independent :
  (∀ a b : gmap str Z, Counter_update a b = Counter_update b a)
  ∧ (∀ a b c : gmap str Z,
       Counter_update (Counter_update a b) c
       = Counter_update a (Counter_update b c))
  ∧ (∀ all_files arrival arrival',
       arrival ≡ₚ arrival' →
       (build_frequency_counter all_files arrival).1.1
         = (build_frequency_counter all_files arrival').1.1
       ∧ (build_frequency_counter all_files arrival).2
         = (build_frequency_counter all_files arrival').2).
Proof.
  split; [exact Counter_update_comm|]. split; [exact Counter_update_assoc|].
  intros all_files arrival arrival' Hperm. unfold build_frequency_counter.
  case_bool_decide; [done|]. cbn [fst snd]. split.
  - by apply collect_total_counter_perm.
  - by apply collect_n_failed_perm.
Qed.

Lemma merge_order_independent_witness :
  let a := tokenize_and_count (py "jag ser dig") in
  let b := tokenize_and_count (py "du ser mig och jag ser dig") in
  let files := [py "a.txt"; py "b.txt"; py "c.doc"] in
  (build_frequency_counter files [Some (a, py "a.txt"); None; Some (b, py "b.txt")]).1.1
  = (build_frequency_counter files [Some (b, py "b.txt"); Some (a, py "a.txt"); None]).1.1.
Proof.
  intros a b files.
  destruct merge_order_independent as (_ & _ & Hperm).
  apply (Hperm files).
  etrans; [apply perm_skip, perm_swap|]. apply perm_swap.
Defined.

(** C9: when the extracted text has 99 characters the worker returns a
    null result and the reduction adds one to the failure count; when it
    has 100 characters the worker returns the mapping of the tokenized
    text, which the reduction merges into the corpus counter without
    touching the failure count. *)
Theorem minimum_length_threshold env filepath text st :
  extract_text env filepath = Some text →
  (length text = 99%nat →
     process_single_file env filepath = None
     ∧ n_failed (collect st (process_single_file env filepath)) = (n_failed st + 1)%Z
     ∧ total_counter (collect st (process_single_file env filepath))
       = total_counter st)
  ∧ (length text = 100%nat →
     process_single_file env filepath = Some (tokenize_and_count text, filepath)
     ∧ n_failed (collect st (process_single_file env filepath)) = n_failed st
     ∧ total_counter (collect st (process_single_file env filepath))
       = Counter_update (total_counter st) (tokenize_and_count text)).
Proof.
  intros Hext. unfold process_single_file. rewrite Hext. split; intros Hlen.
  - rewrite Hlen. cbn [Nat.ltb Nat.leb]. rewrite orb_true_r. done.
  - destruct text as [|c text]; [discriminate|].
    rewrite bool_decide_eq_false_2 by discriminate.
    rewrite Hlen. done.
Qed.

Lemma minimum_length_threshold_witness :
  (length (join (py " ") (replicate 25 (py "hej"))) = 99%nat
   ∧ process_single_file short_files (py "books/kort.txt") = None)
  ∧ (length (join (py " ") (replicate 25 (py "hej")) ++ py ".") = 100%nat
     ∧ total_counter (collect progress_start
                        (process_single_file short_files (py "books/lagom.txt")))
       = {[ py "hej" := 25%Z ]}).
Proof.
  assert (H99 : extract_text short_files (py "books/kort.txt")
                = Some (join (py " ") (replicate 25 (py "hej"))))
    by (vm_compute; reflexivity).
  assert (H100 : extract_text short_files (py "books/lagom.txt")
                 = Some (join (py " ") (replicate 25 (py "hej")) ++ py "."))
    by (vm_compute; reflexivity).
  assert (L99 : length (join (py " ") (replicate 25 (py "hej"))) = 99%nat)
    by (vm_compute; reflexivity).
  assert (L100 : length (join (py " ") (replicate 25 (py "hej")) ++ py ".") = 100%nat)
    by (vm_compute; reflexivity).
  split; split; try assumption.
  - destruct (minimum_length_threshold short_files _ _ progress_start H99)
      as [Hshort _].
    exact (proj1 (Hshort L99)).
  - destruct (minimum_length_threshold short_files _ _ progress_start H100)
      as [_ Hlong].
    destruct (Hlong L100) as (_ & _ & ->). vm_compute. reflexivity.
Defined.

(** C10: every count of a mapping the tokenizer returns is at least 1,
    and so is every count of the corpus counter of a run, whatever the
    files and the order in which their results arrive. *)
Theorem every_count_at_least_one :
  (∀ text, counts_at_least 1 (tokenize_and_count text))
  ∧ (∀ env all_files arrival,
       imap_unordered (process_single_file env) all_files arrival →
       counts_at_least 1 (build_frequency_counter all_files arrival).1.1).
Proof.
  split; [exact tokenize_at_least|].
  intros env all_files arrival Harr. unfold build_frequency_counter.
  case_bool_decide; cbn [fst]; [apply counts_at_least_empty|].
  apply collect_at_least; [apply counts_at_least_empty|].
  intros sub fp Hin. unfold imap_unordered in Harr. rewrite Harr in Hin.
  apply list_elem_of_fmap in Hin as (filepath & Heq & _).
  by apply (process_single_file_at_least env filepath sub fp).
Qed.

Lemma every_count_at_least_one_witness :
  let files := [py "books/kort.txt"; py "books/lagom.txt"] in
  let arrival := [process_single_file short_files (py "books/lagom.txt");
                  process_single_file short_files (py "books/kort.txt")] in
  (build_frequency_counter files arrival).1.1 !! py "hej" = Some 25%Z
  ∧ (1 ≤ 25)%Z.
Proof.
  intros files arrival.
  assert (Hlookup : (build_frequency_counter files arrival).1.1 !! py "hej"
                    = Some 25%Z) by (vm_compute; reflexivity).
  split; [exact Hlookup|].
  destruct every_count_at_least_one as [_ Hrun].
  apply (Hrun short_files files arrival (perm_swap _ _ _) (py "hej") 25%Z Hlookup).
Defined.

(** ** Ranking *)

Lemma insert_by_freq_perm x l : insert_by_freq x l ≡ₚ x :: l.
Proof.
  induction l as [|y l IH]; [done|].
  cbn [insert_by_freq]. destruct (freq x <? freq y)%Z; [|done].
  rewrite IH. apply perm_swap.
Qed.

Lemma sort_by_freq_reverse_perm l : sort_by_freq_reverse l ≡ₚ l.
Proof.
  induction l as [|x l IH]; [done|].
  unfold sort_by_freq_reverse in *. cbn [foldr].
  rewrite insert_by_freq_perm. by f_equiv.
Qed.

Lemma insert_by_freq_descending x l :
  freq_descending l → freq_descending (insert_by_freq x l).
Proof.
  unfold freq_descending.
  induction 1 as [|y l Hl IH Hy]; cbn [insert_by_freq].
  - repeat constructor.
  - destruct (Z.ltb_spec (freq x) (freq y)) as [Hlt|Hge].
    + constructor; [exact IH|].
      rewrite insert_by_freq_perm. constructor; [lia|exact Hy].
    + constructor; [by constructor|].
      constructor; [lia|].
      eapply Forall_impl; [exact Hy|]. cbn. intros; lia.
Qed.

Lemma sort_by_freq_reverse_descending l :
  freq_descending (sort_by_freq_reverse l).
Proof.
  induction l as [|x l IH]; [constructor|].
  by apply insert_by_freq_descending.
Qed.

(** Insertion does not reorder the entries of one frequency. *)
Lemma insert_by_freq_filter f x l :
  filter (λ e, freq e = f) (insert_by_freq x l)
  = filter (λ e, freq e = f) (x :: l).
Proof.
  induction l as [|y l IH]; [done|].
  cbn [insert_by_freq].
  destruct (Z.ltb_spec (freq x) (freq y)) as [Hlt|Hge]; [|done].
  rewrite (filter_cons _ y), IH, !filter_cons.
  destruct (decide (freq y = f)), (decide (freq x = f)); try done; lia.
Qed.

Lemma sort_by_freq_reverse_stable f l :
  filter (λ e, freq e = f) (sort_by_freq_reverse l)
  = filter (λ e, freq e = f) l.
Proof.
  induction l as [|x l IH]; [done|].
  unfold sort_by_freq_reverse in *. cbn [foldr].
  rewrite insert_by_freq_filter, !filter_cons, IH. done.
Qed.

Lemma swadesh_join_filter (total_counter : gmap str Z) f (vocabulary : list (str * str)) :
  sv <$> filter (λ e, freq e = f)
           ((λ kv, {| sv := kv.1; en := kv.2;
                      freq := default 0%Z (total_counter !! kv.1) |}) <$> vocabulary)
  = filter (λ w, default 0%Z (total_counter !! w) = f) vocabulary.*1.
Proof.
  induction vocabulary as [|kv l IH]; [done|].
  cbn [fmap list_fmap]. rewrite !filter_cons. cbn [freq].
  destruct (decide (default 0%Z (total_counter !! kv.1) = f));
    cbn [fmap list_fmap sv]; by rewrite IH.
Qed.

Lemma SWADESH_SWEDISH_NoDup : NoDup SWADESH_SWEDISH.*1.
Proof. apply (bool_decide_eq_true_1 _). vm_compute. reflexivity. Qed.

Lemma swadesh_join_sv total_counter :
  sv <$> swadesh_join total_counter = SWADESH_SWEDISH.*1.
Proof.
  unfold swadesh_join. rewrite <- list_fmap_compose. done.
Qed.

(** C6: the ranked list has one entry for each word of the vocabulary,
    with the count of the word in the corpus mapping, 0 when the word is
    no key of it; it is sorted by descending frequency; and the words of
    any one frequency stand in the order of the vocabulary list. *)
Theorem ranked_entries (total_counter : gmap str Z) :
  let ranked := build_swadesh_data total_counter in
  sv <$> ranked ≡ₚ SWADESH_SWEDISH.*1
  ∧ NoDup (sv <$> ranked)
  ∧ (∀ e, e ∈ ranked →
       (sv e, en e) ∈ SWADESH_SWEDISH
       ∧ freq e = default 0%Z (total_counter !! sv e))
  ∧ freq_descending ranked
  ∧ (∀ f, sv <$> filter (λ e, freq e = f) ranked
          = filter (λ w, default 0%Z (total_counter !! w) = f) SWADESH_SWEDISH.*1).
Proof.
  intros ranked.
  assert (Hperm : ranked ≡ₚ swadesh_join total_counter)
    by apply sort_by_freq_reverse_perm.
  assert (Hsv : sv <$> ranked ≡ₚ SWADESH_SWEDISH.*1)
    by (rewrite Hperm; by rewrite swadesh_join_sv).
  split; [exact Hsv|]. split; [|split; [|split]].
  - rewrite Hsv. apply SWADESH_SWEDISH_NoDup.
  - intros e He. rewrite Hperm in He.
    unfold swadesh_join in He.
    apply list_elem_of_fmap in He as ([k v] & -> & Hkv).
    cbn [sv en freq fst snd]. split; [exact Hkv|reflexivity].
  - apply sort_by_freq_reverse_descending.
  - intros f. unfold ranked, build_swadesh_data.
    rewrite sort_by_freq_reverse_stable. apply swadesh_join_filter.
Qed.

(** ** Tier coverage *)

Lemma values_sum_delete (counter : gmap str Z) k v :
  counter !! k = Some v →
  values_sum counter = (values_sum (delete k counter) + v)%Z.
Proof.
  intros Hk. unfold values_sum.
  rewrite (map_fold_delete_L _ _ k v counter); [done| |done].
  intros; lia.
Qed.

Lemma values_sum_nonneg counter :
  counts_at_least 0 counter → (0 ≤ values_sum counter)%Z.
Proof.
  unfold values_sum, counts_at_least.
  apply (map_fold_weak_ind (λ r (m : gmap str Z),
    (∀ k v, m !! k = Some v → (0 ≤ v)%Z) → (0 ≤ r)%Z)).
  - lia.
  - intros i x m r Hi IH Hall.
    assert (0 ≤ x)%Z by (apply (Hall i); by rewrite lookup_insert_eq).
    assert (0 ≤ r)%Z; [|lia].
    apply IH. intros k v Hk. apply (Hall k).
    rewrite lookup_insert_ne; [done|]. intros ->. congruence.
Qed.

Lemma foldl_freq_acc l a :
  foldl (λ acc w, (acc + freq w)%Z) a l
  = (a + foldl (λ acc w, (acc + freq w)%Z) 0%Z l)%Z.
Proof.
  revert a. induction l as [|x l IH]; intros a; cbn [foldl]; [lia|].
  rewrite (IH (a + freq x)%Z), (IH (0 + freq x)%Z). lia.
Qed.

Lemma freq_sum_cons x l : freq_sum (x :: l) = (freq x + freq_sum l)%Z.
Proof. unfold freq_sum. cbn [foldl]. rewrite foldl_freq_acc. lia. Qed.

Lemma freq_sum_app l1 l2 : freq_sum (l1 ++ l2) = (freq_sum l1 + freq_sum l2)%Z.
Proof.
  induction l1 as [|x l1 IH]; [done|].
  cbn [app]. rewrite !freq_sum_cons, IH. lia.
Qed.

Lemma freq_sum_perm l l' : l ≡ₚ l' → freq_sum l = freq_sum l'.
Proof.
  induction 1 as [|x l l' _ IH|x y l|l1 l2 l3 _ IH1 _ IH2];
    rewrite ?freq_sum_cons; lia.
Qed.

Lemma freq_sum_nonneg l :
  Forall (λ e, (0 ≤ freq e)%Z) l → (0 ≤ freq_sum l)%Z.
Proof.
  induction 1 as [|x l Hx _ IH]; [done|]. rewrite freq_sum_cons. lia.
Qed.

(** The three slices of [compute_tier_coverage] split the list. *)
Lemma freq_sum_tiers data :
  freq_sum data
  = (freq_sum (take TIER1_SIZE data)
     + freq_sum (take (TIER2_SIZE - TIER1_SIZE) (drop TIER1_SIZE data))
     + freq_sum (drop TIER2_SIZE data))%Z.
Proof.
  rewrite <- (take_drop TIER1_SIZE data) at 1.
  rewrite <- (take_drop (TIER2_SIZE - TIER1_SIZE) (drop TIER1_SIZE data)) at 1.
  rewrite drop_drop, !freq_sum_app.
  replace (TIER1_SIZE + (TIER2_SIZE - TIER1_SIZE))%nat with TIER2_SIZE by done.
  lia.
Qed.

(** The vocabulary words are distinct keys, so their counts add up to at
    most the number of words of the corpus. *)
Lemma join_sum_le_values_sum (vocabulary : list (str * str)) (counter : gmap str Z) :
  NoDup vocabulary.*1 → counts_at_least 0 counter →
  (freq_sum ((λ kv, {| sv := kv.1; en := kv.2;
                       freq := default 0%Z (counter !! kv.1) |}) <$> vocabulary)
   ≤ values_sum counter)%Z.
Proof.
  intros Hnd. revert counter.
  induction vocabulary as [|[k e] l IH]; intros counter Hpos.
  - by apply values_sum_nonneg.
  - cbn [fmap list_fmap fst snd] in *. apply NoDup_cons in Hnd as [Hk Hnd].
    rewrite freq_sum_cons. cbn [freq].
    destruct (counter !! k) as [v|] eqn:Hv; cbn [default from_option id].
    + rewrite (values_sum_delete counter k v Hv).
      assert (Hrest :
        (λ kv : str * str, {| sv := kv.1; en := kv.2;
                              freq := default 0%Z (counter !! kv.1) |}) <$> l
        = (λ kv : str * str, {| sv := kv.1; en := kv.2;
                              freq := default 0%Z (delete k counter !! kv.1) |}) <$> l).
      { apply list_fmap_ext. intros i [k' e'] Hi. cbn [fst snd]. f_equal.
        rewrite lookup_delete_ne; [done|]. intros ->. apply Hk.
        apply list_elem_of_fmap. exists (k', e'). split; [done|].
        by eapply list_elem_of_lookup_2. }
      rewrite Hrest.
      assert (counts_at_least 0 (delete k counter)).
      { intros k' v' Hk'. apply (Hpos k').
        by apply lookup_delete_Some in Hk' as [_ ?]. }
      specialize (IH Hnd (delete k counter) H). unfold id.
      rewrite Z.add_comm. apply Z.add_le_mono_r. exact IH.
    + rewrite Z.add_0_l. exact (IH Hnd counter Hpos).
Qed.

Lemma swadesh_join_nonneg counter :
  counts_at_least 0 counter →
  Forall (λ e, (0 ≤ freq e)%Z) (swadesh_join counter).
Proof.
  intros Hpos. unfold swadesh_join. apply Forall_fmap, Forall_forall.
  intros [k e] _. cbn. destruct (counter !! k) as [v|] eqn:Hv; cbn; [|lia].
  by apply (Hpos k).
Qed.

(** Rounding, binary64 and percentages. *)
Section rounding.
Local Open Scope Q_scope.

Lemma round_half_even_near x :
  x - (1 # 2) <= inject_Z (round_half_even x) <= x + (1 # 2).
Proof.
  unfold round_half_even.
  pose proof (Qfloor_le x) as Hlo. pose proof (Qlt_floor x) as Hhi.
  rewrite inject_Z_plus in Hhi. change (inject_Z 1) with 1 in Hhi.
  destruct (Qcompare_spec (x - inject_Z (Qfloor x)) (1 # 2)) as [He|Hl|Hg].
  - destruct (Z.even (Qfloor x)); rewrite ?inject_Z_plus;
      change (inject_Z 1) with 1; split; lra.
  - split; lra.
  - rewrite inject_Z_plus. change (inject_Z 1) with 1. split; lra.
Qed.

Lemma round_half_even_floor x :
  (Qfloor x ≤ round_half_even x ≤ Qfloor x + 1)%Z.
Proof.
  unfold round_half_even.
  destruct (x - inject_Z (Qfloor x) ?= 1 # 2); [destruct (Z.even (Qfloor x))|..]; lia.
Qed.

Lemma round_half_even_mono x y :
  x <= y → (round_half_even x ≤ round_half_even y)%Z.
Proof.
  intros Hxy. pose proof (Qfloor_resp_le x y Hxy) as Hfloor.
  destruct (Z.eq_dec (Qfloor x) (Qfloor y)) as [Heq|Hne].
  - unfold round_half_even. rewrite <- Heq.
    destruct (Qcompare_spec (x - inject_Z (Qfloor x)) (1 # 2)),
             (Qcompare_spec (y - inject_Z (Qfloor x)) (1 # 2));
      try destruct (Z.even (Qfloor x)); try lia; lra.
  - pose proof (round_half_even_floor x). pose proof (round_half_even_floor y). lia.
Qed.

(** Powers of two. *)

Lemma pow2_pos e : 0 < pow2 e.
Proof. unfold pow2. by apply Qpower_0_lt. Qed.

Lemma pow2_plus a b : pow2 (a + b) == pow2 a * pow2 b.
Proof. unfold pow2. by apply Qpower_plus. Qed.

Lemma pow2_succ a : pow2 (a + 1) == 2 * pow2 a.
Proof. rewrite pow2_plus. change (pow2 1) with 2. lra. Qed.

Lemma pow2_le a b : (a ≤ b)%Z → pow2 a <= pow2 b.
Proof. intros H. unfold pow2. by apply Qpower_le_compat_l. Qed.

Lemma pow2_lt_inv a b : pow2 a < pow2 b → (a < b)%Z.
Proof. intros H. unfold pow2 in H. by apply Qpower_lt_compat_l_inv in H. Qed.

Lemma pow2_inject a : (0 ≤ a)%Z → inject_Z (2 ^ a) == pow2 a.
Proof. intros H. unfold pow2. by rewrite Zpower_Qpower. Qed.

(** The binary logarithm brackets its argument. *)
Lemma ilog2_spec x :
  0 < x → pow2 (ilog2 x) <= x ∧ x < pow2 (ilog2 x + 1).
Proof.
  intros Hx. destruct x as [n d].
  assert (Hn : (0 < n)%Z) by (unfold Qlt in Hx; cbn in Hx; lia).
  unfold ilog2. cbn [Qnum Qden].
  set (a := Z.log2 n). set (b := Z.log2 (Z.pos d)).
  destruct (Z.log2_spec n Hn) as [Ha1 Ha2]. fold a in Ha1, Ha2.
  destruct (Z.log2_spec (Z.pos d) eq_refl) as [Hb1 Hb2]. fold b in Hb1, Hb2.
  assert (Ha0 : (0 ≤ a)%Z) by apply Z.log2_nonneg.
  assert (Hb0 : (0 ≤ b)%Z) by apply Z.log2_nonneg.
  rewrite Zle_Qle, pow2_inject in Ha1, Hb1 by done.
  rewrite Zlt_Qlt, pow2_inject in Ha2, Hb2 by lia.
  rewrite <- Z.add_1_r, pow2_succ in Ha2, Hb2.
  assert (Hx' : n # d == inject_Z n / inject_Z (Z.pos d)) by apply Qmake_Qdiv.
  set (x := n # d) in *.
  assert (HD : 0 < inject_Z (Z.pos d)) by reflexivity.
  assert (HxD : x * inject_Z (Z.pos d) == inject_Z n).
  { rewrite Hx'. field. lra. }
  set (N := inject_Z n) in *. set (D := inject_Z (Z.pos d)) in *.
  assert (HK : pow2 (a - b) * pow2 b == pow2 a).
  { rewrite <- pow2_plus. by replace (a - b + b)%Z with a by lia. }
  pose proof (pow2_pos (a - b)) as HKpos. pose proof (pow2_pos b) as HBpos.
  set (K := pow2 (a - b)) in *. set (A := pow2 a) in *. set (B := pow2 b) in *.
  assert (Hup : x < 2 * K).
  { apply (Qmult_lt_r _ _ D HD). nra. }
  assert (Hlow : K < 2 * x).
  { apply (Qmult_lt_r _ _ D HD). nra. }
  destruct (Qle_bool K x) eqn:Htest.
  - apply Qle_bool_iff in Htest. split; [exact Htest|].
    rewrite pow2_succ. exact Hup.
  - assert (Hlt : x < K).
    { apply Qnot_le_lt. intros H. apply Qle_bool_iff in H. congruence. }
    replace (a - b - 1 + 1)%Z with (a - b)%Z by lia.
    split; [|exact Hlt].
    assert (Hhalf : 2 * pow2 (a - b - 1) == K).
    { rewrite <- pow2_succ. by replace (a - b - 1 + 1)%Z with (a - b)%Z by lia. }
    lra.
Qed.

Lemma binary64_exponent_pos x :
  0 < x → binary64_exponent x = Z.max (ilog2 x - 52) (-1074).
Proof.
  intros Hx. destruct x as [[|n|n] d]; [by compute in Hx|reflexivity|by compute in Hx].
Qed.

Lemma binary64_pos x :
  0 < x →
  binary64 x
  = inject_Z (round_half_even (x / pow2 (binary64_exponent x)))
    * pow2 (binary64_exponent x).
Proof.
  intros Hx. destruct x as [[|n|n] d]; [by compute in Hx|reflexivity|by compute in Hx].
Qed.

Lemma binary64_zero x : x == 0 → binary64 x = 0.
Proof.
  destruct x as [[|n|n] d]; intros Hx; [reflexivity|by compute in Hx..].
Qed.

(** The scaled value has at most 53 bits, and exactly 53 above the
    subnormal range. *)
Lemma scaled_range x :
  0 < x →
  x / pow2 (binary64_exponent x) < pow2 53
  ∧ (pow2 52 <= x / pow2 (binary64_exponent x)
     ∨ binary64_exponent x = (-1074)%Z).
Proof.
  intros Hx. rewrite (binary64_exponent_pos x Hx).
  destruct (ilog2_spec x Hx) as [Hlo Hhi].
  set (lg := ilog2 x) in *. set (e := Z.max (lg - 52) (-1074)).
  pose proof (pow2_pos e) as HE.
  assert (Hy : x / pow2 e * pow2 e == x) by (field; lra).
  assert (H53 : pow2 (lg + 1) == pow2 53 * pow2 (lg - 52)).
  { rewrite <- pow2_plus. by replace (53 + (lg - 52))%Z with (lg + 1)%Z by lia. }
  assert (H52 : pow2 lg == pow2 52 * pow2 (lg - 52)).
  { rewrite <- pow2_plus. by replace (52 + (lg - 52))%Z with lg by lia. }
  assert (HLE : pow2 (lg - 52) <= pow2 e) by (apply pow2_le; lia).
  pose proof (pow2_pos 53) as HP53. pose proof (pow2_pos 52) as HP52.
  pose proof (pow2_pos (lg - 52)) as HL.
  set (y := x / pow2 e) in *. split.
  - apply (Qmult_lt_r _ _ (pow2 e) HE). nra.
  - destruct (Z.max_spec (lg - 52) (-1074)) as [[_ He]|[_ He]]; fold e in He.
    + by right.
    + left. apply (Qmult_le_r _ _ (pow2 e) HE). rewrite Hy, He, <- H52. exact Hlo.
Qed.

Lemma round_half_even_nonneg y : 0 <= y → (0 ≤ round_half_even y)%Z.
Proof.
  intros Hy. pose proof (round_half_even_floor y).
  pose proof (Qfloor_resp_le 0 y Hy) as H0. change (Qfloor 0) with 0%Z in H0. lia.
Qed.

Lemma binary64_nonneg x : 0 <= x → 0 <= binary64 x.
Proof.
  intros Hx. destruct (Qlt_le_dec 0 x) as [Hpos|Hzero].
  - rewrite (binary64_pos x Hpos).
    pose proof (pow2_pos (binary64_exponent x)) as HE.
    assert (Hy : 0 <= x / pow2 (binary64_exponent x)).
    { apply Qle_shift_div_l; [exact HE|]. lra. }
    apply round_half_even_nonneg in Hy. rewrite Zle_Qle in Hy.
    change (inject_Z 0) with 0 in Hy. nra.
  - rewrite binary64_zero by lra. apply Qle_refl.
Qed.

(** One rounding adds at most the relative error [2^-53], or half the
    subnormal spacing. *)
Lemma binary64_error x :
  0 <= x → binary64 x <= x * (1 + pow2 (-53)) + pow2 (-1075).
Proof.
  intros Hx.
  pose proof (pow2_pos (-53)) as Hu. pose proof (pow2_pos (-1075)) as Heta.
  destruct (Qlt_le_dec 0 x) as [Hpos|Hzero].
  - rewrite (binary64_pos x Hpos).
    destruct (scaled_range x Hpos) as [_ Hrange].
    pose proof (pow2_pos (binary64_exponent x)) as HE.
    assert (Hy : x / pow2 (binary64_exponent x) * pow2 (binary64_exponent x) == x)
      by (field; lra).
    destruct (round_half_even_near (x / pow2 (binary64_exponent x))) as [_ Hnear].
    set (y := x / pow2 (binary64_exponent x)) in *.
    set (m := inject_Z (round_half_even y)) in *.
    destruct Hrange as [H52|He].
    + assert (Hhalf : pow2 52 * pow2 (-53) == 1 # 2) by reflexivity.
      set (E := pow2 (binary64_exponent x)) in *.
      set (u := pow2 (-53)) in *. set (P := pow2 52) in *.
      assert (Hm : m * E <= (y + (1 # 2)) * E)
        by (apply Qmult_le_compat_r; lra).
      assert (Hp : P * E <= y * E) by (apply Qmult_le_compat_r; lra).
      assert (Hpu : (P * E) * u <= (y * E) * u)
        by (apply Qmult_le_compat_r; lra).
      assert (Hhalf' : (P * E) * u == E * (1 # 2))
        by (rewrite <- Hhalf; ring).
      assert (Hxu : (y * E) * u == x * u) by (rewrite Hy; ring).
      lra.
    + rewrite He in *.
      assert (Hhalf : pow2 (-1074) * (1 # 2) == pow2 (-1075)) by reflexivity.
      set (E := pow2 (-1074)) in *. set (u := pow2 (-53)) in *.
      assert (Hm : m * E <= (y + (1 # 2)) * E)
        by (apply Qmult_le_compat_r; lra).
      assert (Hxu : 0 <= x * u) by (apply Qmult_le_0_compat; lra).
      lra.
  - rewrite binary64_zero by lra. nra.
Qed.

Lemma binary64_mono x y : 0 <= x → x <= y → binary64 x <= binary64 y.
Proof.
  intros Hx Hxy. destruct (Qlt_le_dec 0 x) as [Hpos|Hzero].
  2: { rewrite (binary64_zero x) by lra. apply binary64_nonneg. lra. }
  assert (Hypos : 0 < y) by lra.
  rewrite (binary64_pos x Hpos), (binary64_pos y Hypos).
  destruct (scaled_range x Hpos) as [Hx53 _].
  destruct (scaled_range y Hypos) as [_ Hy52].
  assert (Hlg : (ilog2 x ≤ ilog2 y)%Z).
  { destruct (ilog2_spec x Hpos) as [Hx1 _]. destruct (ilog2_spec y Hypos) as [_ Hy2].
    assert (pow2 (ilog2 x) < pow2 (ilog2 y + 1)) by lra.
    apply pow2_lt_inv in H. lia. }
  assert (He : (binary64_exponent x ≤ binary64_exponent y)%Z).
  { rewrite (binary64_exponent_pos x Hpos), (binary64_exponent_pos y Hypos). lia. }
  set (ex := binary64_exponent x) in *. set (ey := binary64_exponent y) in *.
  pose proof (pow2_pos ex) as HEx. pose proof (pow2_pos ey) as HEy.
  destruct (Z.eq_dec ex ey) as [Heq|Hne].
  - rewrite <- Heq.
    assert (Hscaled : x / pow2 ex <= y / pow2 ex).
    { apply Qle_shift_div_l; [exact HEx|].
      assert (x / pow2 ex * pow2 ex == x) by (field; lra). lra. }
    apply round_half_even_mono in Hscaled. rewrite Zle_Qle in Hscaled.
    apply Qmult_le_compat_r; [exact Hscaled|lra].
  - destruct Hy52 as [Hy52|Hmin].
    2: { exfalso. unfold ex, ey in *.
         rewrite (binary64_exponent_pos x Hpos) in He, Hne.
         rewrite (binary64_exponent_pos y Hypos) in He, Hne, Hmin. lia. }
    assert (Hmx : (round_half_even (x / pow2 ex) ≤ 2 ^ 53)%Z).
    { pose proof (round_half_even_floor (x / pow2 ex)) as [_ Hup].
      assert (Qfloor (x / pow2 ex) < 2 ^ 53)%Z; [|lia].
      rewrite Zlt_Qlt, pow2_inject by lia.
      pose proof (Qfloor_le (x / pow2 ex)). lra. }
    assert (Hmy : (2 ^ 52 ≤ round_half_even (y / pow2 ey))%Z).
    { pose proof (round_half_even_floor (y / pow2 ey)) as [Hlow _].
      assert (2 ^ 52 ≤ Qfloor (y / pow2 ey))%Z; [|lia].
      rewrite <- (Qfloor_Z (2 ^ 52)). apply Qfloor_resp_le.
      rewrite pow2_inject by lia. exact Hy52. }
    rewrite Zle_Qle in Hmx, Hmy. rewrite pow2_inject in Hmx, Hmy by lia.
    assert (Hstep : pow2 53 * pow2 ex <= pow2 52 * pow2 ey).
    { rewrite <- !pow2_plus. apply pow2_le. lia. }
    pose proof (pow2_pos 53). pose proof (pow2_pos 52).
    set (mx := inject_Z (round_half_even (x / pow2 ex))) in *.
    set (my := inject_Z (round_half_even (y / pow2 ey))) in *.
    apply Qle_trans with (pow2 53 * pow2 ex); [nra|].
    apply Qle_trans with (pow2 52 * pow2 ey); [exact Hstep|nra].
Qed.

Lemma binary64_below bound x :
  0 <= x → x <= bound → binary64 bound == bound → binary64 x <= bound.
Proof.
  intros Hx Hb Hexact. rewrite <- Hexact. by apply binary64_mono.
Qed.

Lemma binary64_1 : binary64 1 == 1.
Proof. reflexivity. Qed.

Lemma binary64_100 : binary64 100 == 100.
Proof. reflexivity. Qed.

Lemma ratio_range count total_words :
  (0 ≤ count ≤ total_words)%Z → (0 < total_words)%Z →
  0 <= inject_Z count / inject_Z total_words <= 1.
Proof.
  intros [H0 H1] Ht.
  assert (Hqt : 0 < inject_Z total_words)
    by (change 0 with (inject_Z 0); rewrite <- Zlt_Qlt; lia).
  assert (Hq0 : 0 <= inject_Z count)
    by (change 0 with (inject_Z 0); rewrite <- Zle_Qle; lia).
  assert (Hq1 : inject_Z count <= inject_Z total_words)
    by (rewrite <- Zle_Qle; lia).
  split.
  - apply Qle_shift_div_l; [done|]. lra.
  - apply Qle_shift_div_r; [done|]. lra.
Qed.

Lemma ratio_mono a b total_words :
  (0 < total_words)%Z → (a ≤ b)%Z →
  inject_Z a / inject_Z total_words <= inject_Z b / inject_Z total_words.
Proof.
  intros Ht Hab.
  assert (Hqt : 0 < inject_Z total_words)
    by (change 0 with (inject_Z 0); rewrite <- Zlt_Qlt; lia).
  assert (Hq : inject_Z a <= inject_Z b) by (rewrite <- Zle_Qle; lia).
  unfold Qdiv. apply Qmult_le_compat_r; [exact Hq|].
  apply Qlt_le_weak, Qinv_lt_0_compat, Hqt.
Qed.

Lemma ratio_sum c1 c2 c3 total_words :
  (0 < total_words)%Z →
  inject_Z c1 / inject_Z total_words + inject_Z c2 / inject_Z total_words
  + inject_Z c3 / inject_Z total_words
  == inject_Z (c1 + c2 + c3) / inject_Z total_words.
Proof.
  intros Ht. rewrite !inject_Z_plus.
  assert (Hqt : ~ inject_Z total_words == 0).
  { intros E. assert (0 < inject_Z total_words)
      by (change 0 with (inject_Z 0); rewrite <- Zlt_Qlt; lia).
    lra. }
  field. exact Hqt.
Qed.

Lemma percent_range count total_words :
  (0 ≤ count ≤ total_words)%Z → (0 < total_words)%Z →
  0 <= percent count total_words <= 100.
Proof.
  intros Hc Ht. unfold percent.
  destruct (ratio_range count total_words Hc Ht) as [Ha0 Ha1].
  pose proof (binary64_nonneg _ Ha0) as Hq0.
  pose proof (binary64_below 1 _ Ha0 Ha1 binary64_1) as Hq1.
  set (q := binary64 (inject_Z count / inject_Z total_words)) in *.
  split.
  - apply binary64_nonneg. lra.
  - apply binary64_below; [lra|lra|exact binary64_100].
Qed.

Lemma percent_mono a b total_words :
  (0 < total_words)%Z → (0 ≤ a ≤ b)%Z →
  percent a total_words <= percent b total_words.
Proof.
  intros Ht [Ha Hab]. unfold percent.
  pose proof (ratio_mono 0 a total_words Ht Ha) as Hlow.
  assert (Hzero : inject_Z 0 / inject_Z total_words == 0)
    by (unfold Qdiv; change (inject_Z 0) with 0; ring).
  rewrite Hzero in Hlow.
  pose proof (ratio_mono a b total_words Ht Hab) as Hab'.
  pose proof (binary64_nonneg _ Hlow) as Hq0.
  pose proof (binary64_mono _ _ Hlow Hab') as Hq.
  apply binary64_mono; lra.
Qed.

Lemma round1_range x : 0 <= x <= 100 → 0 <= round1 x <= 100.
Proof.
  intros [H0 H100]. unfold round1.
  pose proof (round_half_even_near (x * 10)) as [Hlo Hhi].
  assert (Hz0 : (0 ≤ round_half_even (x * 10))%Z)
    by (apply round_half_even_nonneg; lra).
  set (z := round_half_even (x * 10)) in *.
  assert (Hz1 : (z < 1001)%Z).
  { rewrite Zlt_Qlt. change (inject_Z 1001) with (1001 # 1). lra. }
  assert (Hq0 : inject_Z 0 <= inject_Z z) by (rewrite <- Zle_Qle; lia).
  assert (Hq1 : inject_Z z <= inject_Z 1000) by (rewrite <- Zle_Qle; lia).
  change (inject_Z 0) with 0 in Hq0. change (inject_Z 1000) with 1000 in Hq1.
  assert (Hd : 0 <= inject_Z z / 10 <= 100).
  { unfold Qdiv. change (/ 10) with (1 # 10). split; lra. }
  destruct Hd as [Hd0 Hd1]. split.
  - by apply binary64_nonneg.
  - by apply binary64_below; [| |exact binary64_100].
Qed.

Lemma round1_mono x y : 0 <= x → x <= y → round1 x <= round1 y.
Proof.
  intros Hx Hxy. unfold round1.
  assert (Hz0 : (0 ≤ round_half_even (x * 10))%Z)
    by (apply round_half_even_nonneg; lra).
  assert (H : (round_half_even (x * 10) ≤ round_half_even (y * 10))%Z)
    by (apply round_half_even_mono; lra).
  rewrite Zle_Qle in Hz0, H. change (inject_Z 0) with 0 in Hz0.
  apply binary64_mono; unfold Qdiv; change (/ 10) with (1 # 10); lra.
Qed.

(** The error of the two roundings of a percentage. *)
Lemma percent_error count total_words :
  (0 ≤ count ≤ total_words)%Z → (0 < total_words)%Z →
  percent count total_words
  <= 100 * (inject_Z count / inject_Z total_words)
         * ((1 + pow2 (-53)) * (1 + pow2 (-53)))
     + 102 * pow2 (-1075).
Proof.
  intros Hc Ht. unfold percent.
  destruct (ratio_range count total_words Hc Ht) as [Ha0 Ha1].
  pose proof (binary64_nonneg _ Ha0) as Hq0.
  pose proof (binary64_error _ Ha0) as Hq.
  set (a := inject_Z count / inject_Z total_words) in *.
  set (q := binary64 a) in *.
  assert (Hq100 : 0 <= q * 100) by lra.
  pose proof (binary64_error _ Hq100) as Hp.
  pose proof (pow2_pos (-1075)) as Heta.
  change (pow2 (-53)) with (1 # 9007199254740992) in *.
  set (eta := pow2 (-1075)) in *. lra.
Qed.

Lemma eta_small : pow2 (-1075) <= 1 # 1152921504606846976.
Proof. change (1 # 1152921504606846976) with (pow2 (-60)). by apply pow2_le. Qed.

(** The bounds on three percentages that share at most the total. *)
Lemma tier_sum_bounds c1 c2 c3 total_words :
  (0 ≤ c1)%Z → (0 ≤ c2)%Z → (0 ≤ c3)%Z →
  (c1 + c2 + c3 ≤ total_words)%Z → (0 < total_words)%Z →
  percent c1 total_words + percent c2 total_words + percent c3 total_words
    <= 100 + pow2 (-45)
  ∧ round1 (percent c1 total_words) + round1 (percent c2 total_words)
    + round1 (percent c3 total_words) <= (1001 # 10) + pow2 (-46)
  ∧ binary64 (binary64 (round1 (percent c1 total_words)
                        + round1 (percent c2 total_words))
              + round1 (percent c3 total_words))
    <= (1001 # 10) + pow2 (-44).
Proof.
  intros H1 H2 H3 Hsum Ht.
  pose proof (percent_error c1 total_words ltac:(lia) Ht) as He1.
  pose proof (percent_error c2 total_words ltac:(lia) Ht) as He2.
  pose proof (percent_error c3 total_words ltac:(lia) Ht) as He3.
  pose proof (percent_range c1 total_words ltac:(lia) Ht) as [Hp1 _].
  pose proof (percent_range c2 total_words ltac:(lia) Ht) as [Hp2 _].
  pose proof (percent_range c3 total_words ltac:(lia) Ht) as [Hp3 _].
  pose proof (ratio_sum c1 c2 c3 total_words Ht) as Hratio.
  destruct (ratio_range (c1 + c2 + c3) total_words ltac:(lia) Ht) as [_ Hone].
  rewrite <- Hratio in Hone.
  set (a1 := inject_Z c1 / inject_Z total_words) in *.
  set (a2 := inject_Z c2 / inject_Z total_words) in *.
  set (a3 := inject_Z c3 / inject_Z total_words) in *.
  set (p1 := percent c1 total_words) in *.
  set (p2 := percent c2 total_words) in *.
  set (p3 := percent c3 total_words) in *.
  pose proof (pow2_pos (-1075)) as Heta. pose proof eta_small as Hsmall.
  change (pow2 (-53)) with (1 # 9007199254740992) in *.
  change (pow2 (-45)) with (1 # 35184372088832).
  change (pow2 (-46)) with (1 # 70368744177664).
  change (pow2 (-44)) with (1 # 17592186044416).
  assert (Hpsum : p1 + p2 + p3 <= 100 + (1 # 35184372088832)).
  { set (eta := pow2 (-1075)) in *. lra. }
  split; [exact Hpsum|].
  unfold round1.
  pose proof (round_half_even_near (p1 * 10)) as [_ Hn1].
  pose proof (round_half_even_near (p2 * 10)) as [_ Hn2].
  pose proof (round_half_even_near (p3 * 10)) as [_ Hn3].
  assert (Hz1 : (0 ≤ round_half_even (p1 * 10))%Z)
    by (apply round_half_even_nonneg; lra).
  assert (Hz2 : (0 ≤ round_half_even (p2 * 10))%Z)
    by (apply round_half_even_nonneg; lra).
  assert (Hz3 : (0 ≤ round_half_even (p3 * 10))%Z)
    by (apply round_half_even_nonneg; lra).
  set (z1 := round_half_even (p1 * 10)) in *.
  set (z2 := round_half_even (p2 * 10)) in *.
  set (z3 := round_half_even (p3 * 10)) in *.
  assert (Hz : (z1 + z2 + z3 < 1002)%Z).
  { rewrite Zlt_Qlt, !inject_Z_plus. change (inject_Z 1002) with (1002 # 1). lra. }
  assert (Hq : inject_Z (z1 + z2 + z3) <= inject_Z 1001)
    by (rewrite <- Zle_Qle; lia).
  rewrite !inject_Z_plus in Hq. change (inject_Z 1001) with 1001 in Hq.
  rewrite Zle_Qle in Hz1, Hz2, Hz3. change (inject_Z 0) with 0 in Hz1, Hz2, Hz3.
  assert (Hd1 : 0 <= inject_Z z1 / 10)
    by (unfold Qdiv; change (/ 10) with (1 # 10); lra).
  assert (Hd2 : 0 <= inject_Z z2 / 10)
    by (unfold Qdiv; change (/ 10) with (1 # 10); lra).
  assert (Hd3 : 0 <= inject_Z z3 / 10)
    by (unfold Qdiv; change (/ 10) with (1 # 10); lra).
  pose proof (binary64_error _ Hd1) as Hr1.
  pose proof (binary64_error _ Hd2) as Hr2.
  pose proof (binary64_error _ Hd3) as Hr3.
  pose proof (binary64_nonneg _ Hd1) as Hr1'.
  pose proof (binary64_nonneg _ Hd2) as Hr2'.
  pose proof (binary64_nonneg _ Hd3) as Hr3'.
  change (pow2 (-53)) with (1 # 9007199254740992) in *.
  set (r1 := binary64 (inject_Z z1 / 10)) in *.
  set (r2 := binary64 (inject_Z z2 / 10)) in *.
  set (r3 := binary64 (inject_Z z3 / 10)) in *.
  unfold Qdiv in Hr1, Hr2, Hr3. change (/ 10) with (1 # 10) in Hr1, Hr2, Hr3.
  assert (Hrsum : r1 + r2 + r3 <= (1001 # 10) + (1 # 70368744177664)).
  { set (eta := pow2 (-1075)) in *. lra. }
  split; [exact Hrsum|].
  assert (H12 : 0 <= r1 + r2) by lra.
  pose proof (binary64_error _ H12) as Hs12.
  pose proof (binary64_nonneg _ H12) as Hs12'.
  set (s12 := binary64 (r1 + r2)) in *.
  assert (H123 : 0 <= s12 + r3) by lra.
  pose proof (binary64_error _ H123) as Hs.
  change (pow2 (-53)) with (1 # 9007199254740992) in *.
  set (eta := pow2 (-1075)) in *. lra.
Qed.
(** The model on known floats: 0.1 is 3602879701896397 / 2^55; 23 of 80
    words are 28.7 percent and 1 of 2000 words 0.1 percent, where exact
    arithmetic would give 28.8 and 0.0. *)
Lemma binary64_tenth : binary64 (1 # 10) == 3602879701896397 # 36028797018963968.
Proof. vm_compute. reflexivity. Qed.

Lemma percent_23_of_80 :
  round1 (percent 23 80) == binary64 (287 # 10)
  ∧ round1 (inject_Z 23 / inject_Z 80 * 100) == binary64 (288 # 10).
Proof. split; vm_compute; reflexivity. Qed.

Lemma percent_1_of_2000 :
  round1 (percent 1 2000) == binary64 (1 # 10)
  ∧ round1 (inject_Z 1 / inject_Z 2000 * 100) == 0.
Proof. split; vm_compute; reflexivity. Qed.

(** The slack of the bounds is needed: float percentages of parts of a
    total can add up to more than 100, and rounded ones to more than
    100.1. *)
Lemma percent_sum_above_100 : ¬ (percent 1 6 + percent 5 6 <= 100).
Proof. vm_compute. intros H. apply H. reflexivity. Qed.

Lemma rounded_sum_above_100_1 :
  ¬ (round1 (percent 4 6) + round1 (percent 1 6) + round1 (percent 1 6)
     <= 1001 # 10).
Proof. vm_compute. intros H. apply H. reflexivity. Qed.
End rounding.


(** C7, as stated, fails: for the text made of the 257 vocabulary words,
    each once, the percentages are the floats 19.5, 19.5 and 61.1 (the
    last one the binary64 number nearest to 61.1); their sum exceeds 100,
    as a sum of real numbers and as the float sum Python computes. *)
Lemma tier_sum_exceeds_100 :
  let total_counter := tokenize_and_count swadesh_text in
  let total_words := values_sum total_counter in
  let coverage := compute_tier_coverage (build_swadesh_data total_counter) total_words in
  total_words = 257%Z
  ∧ (tier1 coverage == 195 # 10)%Q
  ∧ (tier2 coverage == 195 # 10)%Q
  ∧ (tier3 coverage == binary64 (611 # 10))%Q
  ∧ ¬ (tier1 coverage + tier2 coverage + tier3 coverage <= 100)%Q
  ∧ ¬ (binary64 (binary64 (tier1 coverage + tier2 coverage) + tier3 coverage)
       <= 100)%Q.
Proof.
  vm_compute. repeat split; try reflexivity; intros H; apply H; reflexivity.
Qed.

(** C7 (amended): for a corpus mapping with non-negative counts and a
    positive total, each of the three returned percentages is a float in
    [0,100].  The three floats before the rounding to one decimal add up
    to at most 100 + 2^-45; the three returned floats add up to at most
    100.1 + 2^-46, and their float sum, as Python adds them, is at most
    100.1 + 2^-44. *)
Theorem tier_coverage_bounds (total_counter : gmap str Z) :
  counts_at_least 0 total_counter →
  (0 < values_sum total_counter)%Z →
  let total_words := values_sum total_counter in
  let swadesh_data := build_swadesh_data total_counter in
  let coverage := compute_tier_coverage swadesh_data total_words in
  (0 <= tier1 coverage <= 100)%Q
  ∧ (0 <= tier2 coverage <= 100)%Q
  ∧ (0 <= tier3 coverage <= 100)%Q
  ∧ (percent (freq_sum (take TIER1_SIZE swadesh_data)) total_words
     + percent (freq_sum (take (TIER2_SIZE - TIER1_SIZE)
                               (drop TIER1_SIZE swadesh_data))) total_words
     + percent (freq_sum (drop TIER2_SIZE swadesh_data)) total_words
     <= 100 + pow2 (-45))%Q
  ∧ (tier1 coverage + tier2 coverage + tier3 coverage
     <= (1001 # 10) + pow2 (-46))%Q
  ∧ (binary64 (binary64 (tier1 coverage + tier2 coverage) + tier3 coverage)
     <= (1001 # 10) + pow2 (-44))%Q.
Proof.
  intros Hpos Htotal total_words swadesh_data coverage.
  assert (Hperm : swadesh_data ≡ₚ swadesh_join total_counter)
    by apply sort_by_freq_reverse_perm.
  assert (Hall : Forall (λ e, (0 ≤ freq e)%Z) swadesh_data).
  { rewrite Hperm. by apply swadesh_join_nonneg. }
  set (s1 := freq_sum (take TIER1_SIZE swadesh_data)).
  set (s2 := freq_sum (take (TIER2_SIZE - TIER1_SIZE) (drop TIER1_SIZE swadesh_data))).
  set (s3 := freq_sum (drop TIER2_SIZE swadesh_data)).
  assert (H1 : (0 ≤ s1)%Z) by (apply freq_sum_nonneg; by apply Forall_take).
  assert (H2 : (0 ≤ s2)%Z)
    by (apply freq_sum_nonneg; by apply Forall_take, Forall_drop).
  assert (H3 : (0 ≤ s3)%Z) by (apply freq_sum_nonneg; by apply Forall_drop).
  assert (Hsum : (s1 + s2 + s3 ≤ total_words)%Z).
  { unfold s1, s2, s3. rewrite <- freq_sum_tiers, (freq_sum_perm _ _ Hperm).
    apply join_sum_le_values_sum; [apply SWADESH_SWEDISH_NoDup|done]. }
  assert (Hp1 := percent_range s1 total_words ltac:(lia) Htotal).
  assert (Hp2 := percent_range s2 total_words ltac:(lia) Htotal).
  assert (Hp3 := percent_range s3 total_words ltac:(lia) Htotal).
  destruct (tier_sum_bounds s1 s2 s3 total_words H1 H2 H3 Hsum Htotal)
    as (Hp & Hr & Hfloat).
  assert (Hcov : coverage = {| tier1 := round1 (percent s1 total_words);
                               tier2 := round1 (percent s2 total_words);
                               tier3 := round1 (percent s3 total_words) |}).
  { unfold coverage, compute_tier_coverage.
    replace (total_words =? 0)%Z with false by (symmetry; apply Z.eqb_neq; lia).
    reflexivity. }
  rewrite Hcov. cbn [tier1 tier2 tier3].
  split; [by apply round1_range|]. split; [by apply round1_range|].
  split; [by apply round1_range|]. split; [exact Hp|].
  split; [exact Hr|exact Hfloat].
Qed.

Lemma tier_coverage_bounds_witness :
  let total_counter := tokenize_and_count (py "jag ser dig och du ser mig") in
  let coverage :=
    compute_tier_coverage (build_swadesh_data total_counter) (values_sum total_counter) in
  values_sum total_counter = 7%Z
  ∧ (tier1 coverage + tier2 coverage + tier3 coverage
     <= (1001 # 10) + pow2 (-46))%Q.
Proof.
  intros total_counter coverage.
  assert (Hpos : counts_at_least 0 total_counter).
  { intros k v Hk. pose proof (tokenize_at_least _ k v Hk). lia. }
  assert (Htotal : (0 < values_sum total_counter)%Z) by (vm_compute; reflexivity).
  split; [vm_compute; reflexivity|].
  exact (proj1 (proj2 (proj2 (proj2 (proj2
           (tier_coverage_bounds total_counter Hpos Htotal)))))).
Defined.
(** * Further properties of the code *)

(** ** Boilerplate stripping *)

Lemma startswith_app s x p :
  startswith s p = true → startswith (s ++ x) p = true.
Proof.
  revert s. induction p as [|a p IH]; intros s; [by destruct s, x|].
  destruct s as [|b s]; cbn [startswith app]; [discriminate|].
  intros H. apply andb_true_iff in H as [-> H]. by apply IH.
Qed.

Lemma find_nil_nonempty sub : sub ≠ [] → find sub [] = None.
Proof. by destruct sub. Qed.

Lemma find_take_None sub text idx :
  sub ≠ [] → find sub text = Some idx → find sub (take idx text) = None.
Proof.
  intros Hsub. revert idx.
  induction text as [|c rest IH]; intros idx.
  - by rewrite take_nil, find_nil_nonempty.
  - cbn [find]. destruct (startswith (c :: rest) sub) eqn:Hs.
    + intros [= <-]. cbn [take]. by apply find_nil_nonempty.
    + destruct (find sub rest) as [i|]; [|discriminate].
      intros [= <-]. cbn [take find].
      destruct (startswith (c :: take i rest) sub) eqn:Hs'.
      * apply (startswith_app _ (drop i rest)) in Hs'.
        rewrite <- app_comm_cons, take_drop in Hs'. congruence.
      * by rewrite (IH i eq_refl).
Qed.

Lemma find_None_take sub text n :
  find sub text = None → find sub (take n text) = None.
Proof.
  revert n. induction text as [|c rest IH]; intros n.
  - by rewrite take_nil.
  - cbn [find]. destruct (startswith (c :: rest) sub) eqn:Hs; [discriminate|].
    destruct (find sub rest) eqn:Hrest; [discriminate|]. intros _.
    destruct n as [|n]; cbn [take].
    + destruct sub; [discriminate|]. done.
    + cbn [find]. destruct (startswith (c :: take n rest) sub) eqn:Hs'.
      * apply (startswith_app _ (drop n rest)) in Hs'.
        rewrite <- app_comm_cons, take_drop in Hs'. congruence.
      * by rewrite (IH n eq_refl).
Qed.

Lemma strip_start_drop text : ∃ n, strip_start text = drop n text.
Proof.
  unfold strip_start.
  destruct (first_marker _START_MARKERS text) as [idx|]; [|by exists 0%nat].
  destruct (find_from [10] text idx) as [nl|]; [|by exists 0%nat].
  by exists (nl + 1)%nat.
Qed.

Lemma strip_end_take text : ∃ n, strip_end text = take n text.
Proof.
  unfold strip_end.
  destruct (first_marker _END_MARKERS text) as [idx|]; [by exists idx|].
  exists (length text). by rewrite take_ge.
Qed.

(** X1: the stripped text is one contiguous piece of the input: the
    stripper only removes a beginning and an end, it never changes,
    reorders or adds characters. *)
Theorem strip_is_a_piece text :
  ∃ before after,
    text = before ++ strip_gutenberg_boilerplate text ++ after
    ∧ (length (strip_gutenberg_boilerplate text) ≤ length text)%nat.
Proof.
  unfold strip_gutenberg_boilerplate.
  destruct (strip_start_drop text) as [n Hn].
  destruct (strip_end_take (strip_start text)) as [k Hk].
  rewrite Hk, Hn.
  exists (take n text), (drop k (drop n text)). split.
  - by rewrite !take_drop.
  - rewrite length_take, length_drop. lia.
Qed.

(** X2: the first end marker of the list never occurs in a stripped
    text. *)
Theorem strip_removes_first_end_marker text :
  find (py "*** END OF THIS PROJECT GUTENBERG")
       (strip_gutenberg_boilerplate text) = None.
Proof.
  unfold strip_gutenberg_boilerplate.
  generalize (strip_start text). intros s.
  unfold strip_end, _END_MARKERS. cbn [first_marker].
  destruct (find (py "*** END OF THIS PROJECT GUTENBERG") s) as [idx|] eqn:Hfind.
  - apply find_take_None; [discriminate|done].
  - match goal with
    | |- context [match ?m with _ => _ end] => destruct m as [idx|]
    end; [by apply find_None_take|done].
Qed.

(** ** The tokenizer *)

(** A letter of the class that survives lower-casing is a lower-case
    letter. *)
Ltac bool_to_prop H :=
  repeat (progress
    rewrite ?andb_true_iff, ?andb_false_iff, ?orb_true_iff, ?orb_false_iff,
      ?negb_true_iff, ?negb_false_iff, ?N.leb_le, ?N.leb_gt, ?N.eqb_eq,
      ?N.eqb_neq in H).

Lemma lower_char_word c d :
  d ∈ lower_char c → is_word_char d = true → is_lower_word_char d = true.
Proof.
  intros Hd Hw. apply bool_decide_eq_true in Hw.
  assert (Hcase : is_lower_word_char d
                  || ((65 <=? d) && (d <=? 90)
                      || (192 <=? d) && (d <=? 222) && negb (d =? 215)) = true).
  { revert Hw.
    apply (class_forall (λ d, is_lower_word_char d
                              || ((65 <=? d) && (d <=? 90)
                                  || (192 <=? d) && (d <=? 222) && negb (d =? 215)))).
    vm_compute. reflexivity. }
  destruct (is_lower_word_char d); [done|]. exfalso.
  cbn [orb] in Hcase. bool_to_prop Hcase. unfold lower_char in Hd.
  destruct ((65 <=? c) && (c <=? 90)) eqn:B1.
  { bool_to_prop B1. apply list_elem_of_singleton in Hd. lia. }
  destruct ((192 <=? c) && (c <=? 222) && negb (c =? 215)) eqn:B2.
  { bool_to_prop B2. apply list_elem_of_singleton in Hd. lia. }
  bool_to_prop B1. bool_to_prop B2.
  destruct (c =? 304) eqn:B3.
  { apply elem_of_cons in Hd as [->|Hd]; [lia|].
    apply list_elem_of_singleton in Hd. lia. }
  destruct (c =? 8490) eqn:B4.
  { apply list_elem_of_singleton in Hd. lia. }
  destruct (c =? 8491) eqn:B5.
  { apply list_elem_of_singleton in Hd. lia. }
  apply list_elem_of_singleton in Hd. lia.
Qed.

Lemma elem_of_lower d text : d ∈ lower text → ∃ c, c ∈ text ∧ d ∈ lower_char c.
Proof.
  unfold lower. rewrite list_elem_of_In, in_flat_map.
  intros (c & Hc & Hd). exists c. by rewrite !list_elem_of_In.
Qed.

(** The runs are not empty and are made of letters of the text. *)
Lemma findall_from_runs cur text :
  Forall (λ c, is_word_char c = true ∧ c ∈ cur ++ text) cur →
  Forall (λ run, run ≠ []
                 ∧ Forall (λ c, is_word_char c = true ∧ c ∈ cur ++ text) run)
         (findall_from cur text).
Proof.
  revert cur. induction text as [|c text IH]; intros cur Hcur.
  - cbn [findall_from]. destruct cur as [|a cur]; [constructor|].
    constructor; [split; [done|exact Hcur]|constructor].
  - cbn [findall_from]. destruct (is_word_char c) eqn:Hc.
    + assert (Heq : (cur ++ [c]) ++ text = cur ++ c :: text)
        by (by rewrite <- app_assoc).
      specialize (IH (cur ++ [c])). rewrite Heq in IH. apply IH.
      apply Forall_app. split; [exact Hcur|].
      constructor; [split; [done|set_solver]|constructor].
    + assert (Hrest : Forall (λ run, run ≠ [] ∧
                 Forall (λ c0, is_word_char c0 = true ∧ c0 ∈ cur ++ c :: text) run)
                 (findall_from [] text)).
      { eapply Forall_impl; [apply (IH []); constructor|].
        cbn. intros run [Hne Hrun]. split; [done|].
        eapply Forall_impl; [exact Hrun|]. cbn. intros ? [? ?].
        split; [done|]. set_solver. }
      destruct cur as [|a cur]; [exact Hrest|].
      constructor; [|exact Hrest]. split; [done|exact Hcur].
Qed.

Lemma occurrences_pos_elem_of w ws : (0 < occurrences w ws)%Z → w ∈ ws.
Proof.
  induction ws as [|a ws IH]; [rewrite occurrences_nil; lia|].
  rewrite occurrences_cons. destruct (decide (a = w)) as [->|Hne].
  - intros _. left.
  - intros H. right. apply IH. lia.
Qed.

(** X3: every key of a mapping of the tokenizer is a run of the
    lower-cased text; it has between 1 and 40 characters, all of them
    lower-case letters of the class, and it is not a stoplist word
    outside the allow-list. *)
Theorem tokenize_keys text k v :
  tokenize_and_count text !! k = Some v →
  k ∈ _WORD_RE_findall (lower text)
  ∧ (1 ≤ length k ≤ 40)%nat
  ∧ Forall (λ c, is_lower_word_char c = true) k
  ∧ is_noise k = false.
Proof.
  rewrite tokenize_lookup. cbv zeta.
  destruct (keeps k) eqn:Hkeeps; cbn [andb]; [|discriminate].
  case_bool_decide as Hocc; [|discriminate]. intros _.
  apply occurrences_pos_elem_of in Hocc.
  split; [exact Hocc|].
  unfold keeps in Hkeeps. apply andb_true_iff in Hkeeps as [Hlen Hnoise].
  apply negb_true_iff, orb_false_iff in Hlen as [H1 H40].
  apply Nat.ltb_ge in H1, H40. apply negb_true_iff in Hnoise.
  split; [lia|]. split; [|exact Hnoise].
  pose proof (findall_from_runs [] (lower text) (Forall_nil_2 _)) as Hruns.
  rewrite Forall_forall in Hruns. destruct (Hruns k Hocc) as [_ Hk].
  eapply Forall_impl; [exact Hk|]. cbn. intros d [Hw Hd].
  apply elem_of_lower in Hd as (c & _ & Hd).
  by apply (lower_char_word c d).
Qed.

Lemma tokenize_keys_witness :
  tokenize_and_count (py "Gå HEM, Åke!") !! py "åke" = Some 1%Z
  ∧ Forall (λ c, is_lower_word_char c = true) (py "åke").
Proof.
  assert (H : tokenize_and_count (py "Gå HEM, Åke!") !! py "åke" = Some 1%Z)
    by (vm_compute; reflexivity).
  split; [exact H|].
  exact (proj1 (proj2 (proj2 (tokenize_keys _ _ _ H)))).
Defined.

(** Sums of counters. *)

Lemma values_sum_insert_add (counter : gmap str Z) k x :
  values_sum (<[k := (x + default 0 (counter !! k))%Z]> counter)
  = (values_sum counter + x)%Z.
Proof.
  rewrite (values_sum_delete (<[k := (x + default 0 (counter !! k))%Z]> counter) k
             (x + default 0 (counter !! k))%Z) by apply lookup_insert_eq.
  rewrite delete_insert_eq.
  destruct (counter !! k) as [v|] eqn:Hk; cbn [default from_option]; unfold id.
  - rewrite (values_sum_delete counter k v Hk). lia.
  - rewrite delete_id by done. lia.
Qed.

Lemma values_sum_empty : values_sum ∅ = 0%Z.
Proof. unfold values_sum. apply map_fold_empty. Qed.

Lemma values_sum_Counter_update self other :
  values_sum (Counter_update self other)
  = (values_sum self + values_sum other)%Z.
Proof.
  unfold Counter_update.
  apply (map_fold_weak_ind (λ r (m : gmap str Z),
    values_sum r = (values_sum self + values_sum m)%Z)).
  - rewrite values_sum_empty. lia.
  - intros i x m r Hi IH.
    rewrite values_sum_insert_add, IH.
    rewrite (values_sum_delete (<[i:=x]> m) i x) by apply lookup_insert_eq.
    rewrite delete_insert_eq, delete_id by done. lia.
Qed.

Lemma values_sum_count_word counter w :
  values_sum (count_word counter w)
  = (values_sum counter + if keeps w then 1 else 0)%Z.
Proof.
  rewrite count_word_keeps. destruct (keeps w); [|lia].
  rewrite Z.add_comm. apply values_sum_insert_add.
Qed.

Lemma values_sum_foldl_count_word ws counter :
  values_sum (foldl count_word counter ws)
  = (values_sum counter + Z.of_nat (length (filter (λ w, keeps w = true) ws)))%Z.
Proof.
  revert counter. induction ws as [|w ws IH]; intros counter.
  - cbn. lia.
  - cbn [foldl]. rewrite IH, values_sum_count_word, filter_cons.
    destruct (decide (keeps w = true)) as [->|Hk].
    + cbn [length]. lia.
    + destruct (keeps w); [done|]. lia.
Qed.

(** X4: the counts of a mapping of the tokenizer add up to the number of
    runs of the lower-cased text that pass the two filters: every
    surviving run is counted once. *)
Theorem tokenize_total text :
  values_sum (tokenize_and_count text)
  = Z.of_nat (length (filter (λ w, keeps w = true)
                             (_WORD_RE_findall (lower text)))).
Proof.
  unfold tokenize_and_count.
  rewrite values_sum_foldl_count_word, values_sum_empty. lia.
Qed.

(** Text put together from pieces. *)

Lemma findall_from_app_gap cur a gap b :
  Forall (λ c, is_word_char c = false) gap → gap ≠ [] →
  findall_from cur (a ++ gap ++ b) = findall_from cur a ++ findall_from [] b.
Proof.
  intros Hgap Hne. revert cur. induction a as [|c a IH]; intros cur.
  - cbn [app]. rewrite findall_from_gap by done. cbn [findall_from].
    by destruct cur.
  - cbn [app findall_from]. destruct (is_word_char c); [apply IH|].
    destruct cur; by rewrite IH.
Qed.

Lemma findall_join sep parts :
  Forall (λ c, is_word_char c = false) sep → sep ≠ [] →
  _WORD_RE_findall (join sep parts) = concat (_WORD_RE_findall <$> parts).
Proof.
  intros Hsep Hne. unfold _WORD_RE_findall.
  induction parts as [|p [|q parts] IH]; [done| |].
  - cbn. by rewrite app_nil_r.
  - change (join sep (p :: q :: parts)) with (p ++ sep ++ join sep (q :: parts)).
    rewrite findall_from_app_gap by done. rewrite IH. done.
Qed.

Lemma Counter_update_empty_r (a : gmap str Z) : Counter_update a ∅ = a.
Proof. unfold Counter_update. apply map_fold_empty. Qed.

Lemma Counter_update_empty_l (b : gmap str Z) : Counter_update ∅ b = b.
Proof.
  apply map_eq. intros k. rewrite lookup_Counter_update, lookup_empty.
  destruct (b !! k); cbn; [f_equal; lia|done].
Qed.

Lemma foldl_count_word_update counter ws :
  foldl count_word counter ws
  = Counter_update counter (foldl count_word ∅ ws).
Proof.
  apply map_eq. intros k.
  rewrite lookup_Counter_update, !foldl_count_word_lookup, lookup_empty.
  destruct (keeps k && bool_decide (0 < occurrences k ws)%Z); [|done].
  cbn. apply (f_equal (@Some Z)). lia.
Qed.

Lemma foldl_count_word_concat counter (runs : list (list str)) :
  foldl count_word counter (concat runs)
  = foldl Counter_update counter (foldl count_word ∅ <$> runs).
Proof.
  revert counter. induction runs as [|r runs IH]; intros counter; [done|].
  cbn [concat fmap list_fmap foldl]. rewrite foldl_app, IH.
  by rewrite (foldl_count_word_update counter r).
Qed.

Lemma foldl_Counter_update_acc (counter : gmap str Z) subs :
  foldl Counter_update counter subs
  = Counter_update counter (foldl Counter_update ∅ subs).
Proof.
  revert counter. induction subs as [|s subs IH]; intros counter.
  - cbn. by rewrite Counter_update_empty_r.
  - cbn [foldl]. rewrite (IH (Counter_update counter s)),
      (IH (Counter_update ∅ s)), Counter_update_empty_l.
    apply Counter_update_assoc.
Qed.

Lemma foldl_Counter_update_concat (counter : gmap str Z) (groups : list (list (gmap str Z))) :
  foldl Counter_update counter (foldl Counter_update ∅ <$> groups)
  = foldl Counter_update counter (concat groups).
Proof.
  revert counter. induction groups as [|g groups IH]; intros counter; [done|].
  cbn [concat fmap list_fmap foldl]. rewrite foldl_app, IH.
  by rewrite <- foldl_Counter_update_acc.
Qed.

Lemma tokenize_join_pieces sep parts :
  Forall (λ c, isspace c = true) sep → sep ≠ [] →
  tokenize_and_count (join sep parts)
  = foldl Counter_update ∅ (tokenize_and_count <$> parts).
Proof.
  intros Hsep Hne.
  destruct (lower_whitespace sep Hsep) as [Hlsep Hgap].
  unfold tokenize_and_count at 1.
  rewrite lower_join, Hlsep, findall_join by done.
  rewrite foldl_count_word_concat, <- !list_fmap_compose. done.
Qed.

(** X5: tokenizing pieces of text joined by whitespace gives the merge
    of the mappings of the pieces: a token never spans two pieces, and
    nothing is counted that is in no piece. *)
Theorem tokenize_join sep parts :
  Forall (λ c, isspace c = true) sep → sep ≠ [] →
  tokenize_and_count (join sep parts)
  = foldl Counter_update ∅ (tokenize_and_count <$> parts).
Proof. apply tokenize_join_pieces. Qed.

Lemma tokenize_join_witness :
  tokenize_and_count (join [10] [py "Hej igen"; py "hej då"])
  = Counter_update (tokenize_and_count (py "Hej igen"))
                   (tokenize_and_count (py "hej då")).
Proof.
  rewrite (tokenize_join [10] [py "Hej igen"; py "hej då"]).
  - cbn [fmap list_fmap foldl].
    generalize (tokenize_and_count (py "Hej igen")), (tokenize_and_count (py "hej då")).
    intros a b. rewrite Counter_update_empty_l. reflexivity.
  - apply forallb_Forall. vm_compute. reflexivity.
  - discriminate.
Defined.

(** ** Text extractors *)

Lemma isspace_newline : Forall (λ c, isspace c = true) [10].
Proof. apply forallb_Forall. vm_compute. reflexivity. Qed.

Lemma isspace_space : Forall (λ c, isspace c = true) (py " ").
Proof. apply forallb_Forall. vm_compute. reflexivity. Qed.

Lemma tokenize_chunks (markup : list (str * list str)) :
  tokenize_and_count <$> ((λ e, join (py " ") e.2) <$> markup)
  = foldl Counter_update ∅
    <$> ((λ parts : list str, tokenize_and_count <$> parts) <$> (snd <$> markup)).
Proof.
  induction markup as [|e markup IH]; [done|].
  cbn [fmap list_fmap]. f_equal; [|exact IH].
  apply tokenize_join_pieces; [apply isspace_space|discriminate].
Qed.

Lemma concat_fmap_tokenize (groups : list (list str)) :
  concat ((λ parts : list str, tokenize_and_count <$> parts) <$> groups)
  = tokenize_and_count <$> concat groups.
Proof.
  induction groups as [|g groups IH]; [done|].
  cbn [fmap list_fmap concat]. rewrite fmap_app. f_equal. exact IH.
Qed.

(** X6: the words of an EPUB book are the words of the text pieces of
    its markup entries: tokenizing the extracted text gives the merge of
    the mappings of those pieces, the other entries of the archive play
    no part, and no token runs across two pieces. *)
Theorem epub_tokens env filepath entries :
  epub_entries env filepath = Some entries →
  ∃ text,
    extract_text_epub env filepath = Some text
    ∧ tokenize_and_count text
      = foldl Counter_update ∅
          (tokenize_and_count
           <$> concat (snd <$> filter (λ e, is_markup_name e.1 = true) entries)).
Proof.
  intros Hentries. unfold extract_text_epub. rewrite Hentries.
  cbn [fmap option_fmap option_map].
  eexists. split; [reflexivity|].
  rewrite tokenize_join_pieces by (apply isspace_newline || discriminate).
  rewrite tokenize_chunks, foldl_Counter_update_concat, concat_fmap_tokenize.
  done.
Qed.

Lemma epub_tokens_witness :
  ∃ text,
    extract_text_epub sample_epub (py "books/saga.epub") = Some text
    ∧ tokenize_and_count text !! py "hej" = Some 2%Z
    ∧ tokenize_and_count text !! py "application" = None.
Proof.
  destruct (epub_tokens sample_epub (py "books/saga.epub") _ eq_refl)
    as (text & Htext & Htokens).
  exists text. split; [exact Htext|].
  rewrite Htokens. split; vm_compute; reflexivity.
Defined.

(** X7: without PyMuPDF a file with the extension [.pdf], in any letter
    case, is still a file the discovery keeps, but its text is never
    read: extraction and the worker return a null result whatever the
    file holds. *)
Theorem pdf_without_support env filepath :
  PDF_SUPPORT env = false →
  lower (splitext filepath).2 = py ".pdf" →
  has_handler filepath = true
  ∧ extract_text env filepath = None
  ∧ process_single_file env filepath = None.
Proof.
  intros Hpdf Hext.
  assert (Hext_txt : extract_text env filepath = None).
  { unfold extract_text. rewrite Hext.
    change (HANDLERS_get (py ".pdf")) with (Some Handler_pdf).
    cbn [run_handler]. unfold extract_text_pdf. by rewrite Hpdf. }
  split; [|split; [exact Hext_txt|]].
  - unfold has_handler. rewrite Hext. reflexivity.
  - unfold process_single_file. by rewrite Hext_txt.
Qed.

Lemma pdf_without_support_witness :
  process_single_file sample_epub (py "books/Bok.PDF") = None
  ∧ pdf_pages sample_epub (py "books/Bok.PDF") = Some [py "Det var en gång"].
Proof.
  split; [|reflexivity].
  apply (pdf_without_support sample_epub (py "books/Bok.PDF")).
  - reflexivity.
  - vm_compute. reflexivity.
Defined.

(** ** File discovery *)

Lemma rfind_char_not_elem c text : c ∉ text → rfind_char c text = None.
Proof.
  induction text as [|a text IH]; [done|].
  intros Hc. apply not_elem_of_cons in Hc as [Hne Hc].
  cbn [rfind_char]. rewrite (IH Hc).
  destruct (N.eqb_spec a c); [congruence|done].
Qed.

Lemma rfind_char_lt c text i : rfind_char c text = Some i → (i < length text)%nat.
Proof.
  revert i. induction text as [|a text IH]; intros i; [discriminate|].
  cbn [rfind_char length]. destruct (rfind_char c text) as [j|].
  - intros [= <-]. specialize (IH j eq_refl). lia.
  - destruct (a =? c); [|discriminate]. intros [= <-]. lia.
Qed.

Lemma rfind_char_app c a b :
  rfind_char c (a ++ b) =
  match rfind_char c b with
  | Some i => Some (length a + i)%nat
  | None => rfind_char c a
  end.
Proof.
  induction a as [|x a IH]; cbn [app rfind_char length].
  - by destruct (rfind_char c b).
  - rewrite IH. destruct (rfind_char c b); [done|].
    by destruct (rfind_char c a).
Qed.

Lemma rfind_char_snoc c a : rfind_char c (a ++ [c]) = Some (length a).
Proof.
  rewrite rfind_char_app. cbn [rfind_char]. rewrite N.eqb_refl.
  f_equal. lia.
Qed.

(** The extension of a path is the extension of its last component. *)
Lemma splitext_prefix pre name :
  47 ∉ name → (pre = [] ∨ ∃ pre', pre = pre' ++ [47]) →
  (splitext (pre ++ name)).2 = (splitext name).2.
Proof.
  intros Hname Hpre. unfold splitext.
  pose proof (rfind_char_not_elem 47 name Hname) as Hsep.
  rewrite (rfind_char_app 47), Hsep.
  assert (Hfi : match rfind_char 47 pre with
                | Some sepIndex => S sepIndex
                | None => 0%nat
                end = length pre).
  { destruct Hpre as [->|[pre' ->]]; [done|].
    rewrite rfind_char_snoc, length_app. cbn. lia. }
  rewrite Hfi, (rfind_char_app 46).
  destruct (rfind_char 46 name) as [i|] eqn:Hdot.
  - replace (length pre <=? length pre + i)%nat with true
      by (symmetry; apply Nat.leb_le; lia).
    cbn [andb Nat.leb drop].
    replace (length pre + i - length pre)%nat with i by lia.
    rewrite drop_app_length, Nat.sub_0_r, drop_0.
    destruct (existsb (λ c, negb (c =? 46)) (take i name)); [|done].
    cbn [snd]. apply drop_app_add.
  - destruct (rfind_char 46 pre) as [d|] eqn:Hd; [|done].
    apply rfind_char_lt in Hd.
    replace (length pre <=? d)%nat with false
      by (symmetry; apply Nat.leb_gt; lia).
    done.
Qed.

Lemma endswith_sep root :
  endswith root [47] = true → ∃ pre', root = pre' ++ [47].
Proof.
  unfold endswith. change (reverse [47]) with [47]. intros H.
  destruct (reverse root) as [|a t] eqn:Hrev; cbn [startswith] in H;
    [discriminate|].
  apply andb_true_iff in H as [H _]. apply N.eqb_eq in H. subst a.
  apply (f_equal reverse) in Hrev. rewrite reverse_involutive in Hrev.
  rewrite Hrev, reverse_cons. eauto.
Qed.

Lemma path_join_ext root name :
  47 ∉ name → (splitext (path_join root name)).2 = (splitext name).2.
Proof.
  intros Hname. unfold path_join.
  destruct name as [|c name'] eqn:Hn.
  - cbn [startswith].
    destruct (bool_decide (root = []) || endswith root [47]) eqn:Hroot.
    + apply splitext_prefix; [done|].
      apply orb_true_iff in Hroot as [Hroot|Hroot].
      * left. by apply bool_decide_eq_true in Hroot.
      * right. by apply endswith_sep.
    + rewrite app_nil_r.
      replace (root ++ [47]) with ((root ++ [47]) ++ []) by apply app_nil_r.
      apply splitext_prefix; [done|]. right. eauto.
  - cbn [startswith]. destruct (N.eqb_spec 47 c) as [<-|Hc].
    { exfalso. apply Hname. left. }
    cbn [andb].
    destruct (bool_decide (root = []) || endswith root [47]) eqn:Hroot.
    + apply splitext_prefix; [done|].
      apply orb_true_iff in Hroot as [Hroot|Hroot].
      * left. by apply bool_decide_eq_true in Hroot.
      * right. by apply endswith_sep.
    + rewrite app_assoc. apply splitext_prefix; [done|]. right. eauto.
Qed.

Lemma insert_str_perm x l : insert_str x l ≡ₚ x :: l.
Proof.
  induction l as [|y l IH]; [done|].
  cbn [insert_str]. destruct (str_le x y); [done|].
  rewrite IH. apply perm_swap.
Qed.

Lemma sorted_perm files : sorted files ≡ₚ files.
Proof.
  induction files as [|x files IH]; [done|].
  unfold sorted in *. cbn [foldr]. rewrite insert_str_perm. by f_equiv.
Qed.

Lemma joined_names_supported root names f :
  Forall (λ name, 47 ∉ name) names →
  f ∈ path_join root <$> filter (λ name, has_handler name = true) names →
  has_handler f = true.
Proof.
  intros Hnames Hf.
  apply list_elem_of_fmap in Hf as (name & -> & Hname).
  apply list_elem_of_filter in Hname as [Hh Hname].
  rewrite Forall_forall in Hnames.
  unfold has_handler in *. by rewrite (path_join_ext root name (Hnames name Hname)).
Qed.

(** X8: every path the discovery returns has an extension with a
    handler, so the worker never meets an unsupported file in a run; the
    names in the listings are plain file names, without separator. *)
Theorem collect_files_supported dirs books_dir include_legacy f :
  Forall (λ d, Forall (λ name, 47 ∉ name) d.2) (walk dirs books_dir) →
  (∀ names, legacy_listing dirs = Some names → Forall (λ name, 47 ∉ name) names) →
  f ∈ collect_files dirs books_dir include_legacy →
  has_handler f = true ∧ ¬ unsupported f.
Proof.
  intros Hwalk Hlegacy Hf.
  assert (Hh : has_handler f = true); [|split; [exact Hh|]].
  - unfold collect_files in Hf. rewrite sorted_perm in Hf.
    assert (Hbooks : ∀ f,
      f ∈ flat_map (λ d, path_join d.1 <$> filter (λ name, has_handler name = true) d.2)
                   (walk dirs books_dir) → has_handler f = true).
    { clear f Hf. intros f Hf.
      apply list_elem_of_In, in_flat_map in Hf as (d & Hd & Hf).
      apply list_elem_of_In in Hd, Hf.
      rewrite Forall_forall in Hwalk.
      by apply (joined_names_supported d.1 d.2 f (Hwalk d Hd)). }
    destruct include_legacy; [|by apply Hbooks].
    destruct (legacy_listing dirs) as [names|] eqn:Hnames; [|by apply Hbooks].
    apply elem_of_app in Hf as [Hf|Hf]; [by apply Hbooks|].
    by apply (joined_names_supported LEGACY_BOOKS_DIR names f (Hlegacy names eq_refl)).
  - unfold unsupported. unfold has_handler in Hh.
    apply bool_decide_eq_true in Hh. by intros Hn.
Qed.

Lemma collect_files_supported_witness :
  collect_files sample_dirs (py "books") true
  = [py "books/b.txt"; py "books/sagor/A.EPUB"; py "swedish_books/gammal.pdf"]
  ∧ has_handler (py "books/sagor/A.EPUB") = true.
Proof.
  assert (Hfiles : collect_files sample_dirs (py "books") true
                   = [py "books/b.txt"; py "books/sagor/A.EPUB";
                      py "swedish_books/gammal.pdf"])
    by (vm_compute; reflexivity).
  split; [exact Hfiles|].
  apply (collect_files_supported sample_dirs (py "books") true).
  - apply Forall_forall. intros d Hd. apply Forall_forall. intros name Hname.
    revert d Hd name Hname.
    apply (Forall_forall (λ d, ∀ name, name ∈ d.2 → 47 ∉ name)).
    repeat constructor; cbn; intros name Hname;
      repeat (apply elem_of_cons in Hname as [->|Hname];
              [apply (bool_decide_eq_false_1 _); vm_compute; reflexivity|]);
      by apply elem_of_nil in Hname.
  - intros names [= <-].
    repeat constructor; apply (bool_decide_eq_false_1 _); vm_compute; reflexivity.
  - rewrite Hfiles. right. left.
Defined.

(** ** The reduction *)

Lemma foldl_collect_stats st rs :
  book_stats (foldl collect st rs) = book_stats st ++ omap result_stat rs.
Proof.
  revert st. induction rs as [|r rs IH]; intros st.
  - cbn. by rewrite app_nil_r.
  - cbn [foldl]. rewrite IH.
    destruct r as [[sub fp]|]; cbn; [|done]. by rewrite <- app_assoc.
Qed.

Lemma foldl_collect_failed st rs :
  n_failed (foldl collect st rs)
  = (n_failed st + Z.of_nat (length rs) - Z.of_nat (length (omap result_stat rs)))%Z.
Proof.
  revert st. induction rs as [|r rs IH]; intros st.
  - cbn. lia.
  - cbn [foldl]. rewrite IH.
    destruct r as [[sub fp]|]; cbn; lia.
Qed.

Lemma length_omap_result_stat rs :
  (length (omap result_stat rs) ≤ length rs)%nat.
Proof.
  induction rs as [|[r|] rs IH]; cbn; lia.
Qed.

Lemma stats_total_cons s stats :
  stats_total (s :: stats) = (s.2 + stats_total stats)%Z.
Proof. done. Qed.

Lemma foldl_collect_values_sum st rs :
  values_sum (total_counter (foldl collect st rs))
  = (values_sum (total_counter st) + stats_total (omap result_stat rs))%Z.
Proof.
  revert st. induction rs as [|r rs IH]; intros st.
  - cbn. lia.
  - cbn [foldl]. rewrite IH. destruct r as [[sub fp]|].
    + cbn [collect total_counter]. rewrite values_sum_Counter_update.
      change (omap result_stat (Some (sub, fp) :: rs))
        with ((basename fp, values_sum sub) :: omap result_stat rs).
      rewrite stats_total_cons. cbn [snd]. lia.
    + done.
Qed.

Lemma default_Counter_update (self other : gmap str Z) w :
  default 0%Z (Counter_update self other !! w)
  = (default 0 (self !! w) + default 0 (other !! w))%Z.
Proof.
  rewrite lookup_Counter_update.
  destruct (other !! w); cbn; unfold id; lia.
Qed.

Lemma foldl_collect_word st rs w :
  default 0%Z (total_counter (foldl collect st rs) !! w)
  = (default 0 (total_counter st !! w) + word_total w rs)%Z.
Proof.
  revert st. induction rs as [|r rs IH]; intros st.
  - cbn. lia.
  - cbn [foldl]. rewrite IH.
    destruct r as [[sub fp]|]; cbn [collect total_counter word_total foldr].
    + rewrite default_Counter_update. fold (word_total w rs). lia.
    + fold (word_total w rs). lia.
Qed.

Lemma imap_unordered_length {A B} (f : A → B) xs arrival :
  imap_unordered f xs arrival → length arrival = length xs.
Proof.
  unfold imap_unordered. intros H. by rewrite H, length_fmap.
Qed.

Lemma omap_result_stat_perm rs rs' :
  rs ≡ₚ rs' → omap result_stat rs ≡ₚ omap result_stat rs'.
Proof.
  induction 1 as [|r rs rs' _ IH|r1 r2 rs|rs1 rs2 rs3 _ IH1 _ IH2].
  - done.
  - cbn. destruct (result_stat r); [by f_equiv|done].
  - cbn. destruct (result_stat r1), (result_stat r2); try done. apply perm_swap.
  - by etrans.
Qed.

(** X9: in a run every file is accounted for once: the failure count
    and the number of statistics entries add up to the number of files. *)
Theorem every_file_accounted env all_files arrival :
  imap_unordered (process_single_file env) all_files arrival →
  ((build_frequency_counter all_files arrival).2
   + Z.of_nat (length (build_frequency_counter all_files arrival).1.2)
   = Z.of_nat (length all_files))%Z
  ∧ (0 ≤ (build_frequency_counter all_files arrival).2)%Z.
Proof.
  intros Harr. apply imap_unordered_length in Harr.
  unfold build_frequency_counter. case_bool_decide as Hlen; cbn [fst snd].
  - rewrite Hlen. cbn. lia.
  - rewrite foldl_collect_failed, foldl_collect_stats. cbn [progress_start n_failed book_stats app].
    pose proof (length_omap_result_stat arrival). lia.
Qed.

Lemma every_file_accounted_witness :
  let files := [py "books/kort.txt"; py "books/lagom.txt"; py "books/saknas.txt"] in
  let arrival := process_single_file short_files <$> files in
  (build_frequency_counter files arrival).2 = 2%Z
  ∧ length (build_frequency_counter files arrival).1.2 = 1%nat.
Proof.
  intros files arrival.
  assert (Hstats : length (build_frequency_counter files arrival).1.2 = 1%nat)
    by (vm_compute; reflexivity).
  split; [|exact Hstats].
  assert (Harr : imap_unordered (process_single_file short_files) files arrival)
    by (unfold imap_unordered, arrival; reflexivity).
  destruct (every_file_accounted short_files files arrival Harr) as [Hsum _].
  rewrite Hstats in Hsum. change (length files) with 3%nat in Hsum. lia.
Defined.

(** X10: the counts of the corpus counter add up to the sum of the word
    counts of the statistics: the total of the corpus is the total of
    its books. *)
Theorem corpus_total_is_stats_total all_files arrival :
  values_sum (build_frequency_counter all_files arrival).1.1
  = stats_total (build_frequency_counter all_files arrival).1.2.
Proof.
  unfold build_frequency_counter. case_bool_decide; cbn [fst snd].
  - by rewrite values_sum_empty.
  - rewrite foldl_collect_values_sum, foldl_collect_stats.
    cbn [progress_start total_counter book_stats app].
    rewrite values_sum_empty. lia.
Qed.

(** X11: in a run the corpus count of a word is the sum of its counts in
    the mappings of the files that gave one, 0 when it is in none. *)
Theorem corpus_count_is_sum env all_files arrival w :
  imap_unordered (process_single_file env) all_files arrival →
  default 0%Z ((build_frequency_counter all_files arrival).1.1 !! w)
  = word_total w arrival.
Proof.
  intros Harr. apply imap_unordered_length in Harr.
  unfold build_frequency_counter. case_bool_decide as Hlen; cbn [fst snd].
  - rewrite Hlen in Harr. destruct arrival; [|discriminate].
    by rewrite lookup_empty.
  - rewrite foldl_collect_word. cbn [progress_start total_counter].
    rewrite lookup_empty. cbn. lia.
Qed.

Lemma corpus_count_is_sum_witness :
  let files := [py "books/lagom.txt"; py "books/kort.txt"; py "books/lagom.txt"] in
  let arrival := process_single_file short_files <$> files in
  (build_frequency_counter files arrival).1.1 !! py "hej" = Some 50%Z
  ∧ word_total (py "hej") arrival = 50%Z.
Proof.
  intros files arrival.
  assert (Hhej : (build_frequency_counter files arrival).1.1 !! py "hej" = Some 50%Z)
    by (vm_compute; reflexivity).
  split; [exact Hhej|].
  assert (Harr : imap_unordered (process_single_file short_files) files arrival)
    by (unfold imap_unordered, arrival; reflexivity).
  rewrite <- (corpus_count_is_sum short_files files arrival (py "hej") Harr).
  by rewrite Hhej.
Defined.

(** X12: the statistics of a run are the entries (base name of the
    path, number of tokens) of the files that gave a mapping, in the
    order of arrival; two orders of arrival give the same entries up to
    their order. *)
Theorem stats_of_run env all_files arrival :
  imap_unordered (process_single_file env) all_files arrival →
  (build_frequency_counter all_files arrival).1.2 = omap result_stat arrival
  ∧ (build_frequency_counter all_files arrival).1.2
    ≡ₚ omap result_stat (process_single_file env <$> all_files).
Proof.
  intros Harr.
  assert (Hstats : (build_frequency_counter all_files arrival).1.2
                   = omap result_stat arrival).
  { pose proof (imap_unordered_length _ _ _ Harr) as Hlen.
    unfold build_frequency_counter. case_bool_decide as Hnil; cbn [fst snd].
    - rewrite Hnil in Hlen. by destruct arrival.
    - by rewrite foldl_collect_stats. }
  split; [exact Hstats|].
  rewrite Hstats. by apply omap_result_stat_perm.
Qed.

Lemma stats_of_run_witness :
  let files := [py "books/kort.txt"; py "books/lagom.txt"] in
  let arrival := [process_single_file short_files (py "books/lagom.txt");
                  process_single_file short_files (py "books/kort.txt")] in
  (build_frequency_counter files arrival).1.2 = [(py "lagom.txt", 25%Z)].
Proof.
  intros files arrival.
  destruct (stats_of_run short_files files arrival (perm_swap _ _ _)) as [-> _].
  vm_compute. reflexivity.
Defined.

(** ** Ranking and tiers *)

Lemma sort_by_freq_reverse_sorted l :
  freq_descending l → sort_by_freq_reverse l = l.
Proof.
  unfold freq_descending, sort_by_freq_reverse.
  induction 1 as [|x l Hl IH Hx]; [done|].
  cbn [foldr]. rewrite IH.
  destruct Hx as [|y l' Hy _]; [done|].
  cbn [insert_by_freq].
  by replace (freq x <? freq y)%Z with false by (symmetry; apply Z.ltb_ge; lia).
Qed.

(** X13: when the vocabulary, with the counts of the corpus, is already
    in descending order of frequency, ranking leaves it in the order of
    the vocabulary list; in particular when no vocabulary word occurs in
    the corpus, the ranked list is the vocabulary list with frequency 0
    throughout. *)
Theorem ranking_keeps_sorted_vocabulary (total_counter : gmap str Z) :
  (freq_descending (swadesh_join total_counter) →
   build_swadesh_data total_counter = swadesh_join total_counter)
  ∧ ((∀ w, w ∈ SWADESH_SWEDISH.*1 → total_counter !! w = None) →
     build_swadesh_data total_counter
     = (λ kv, {| sv := kv.1; en := kv.2; freq := 0 |}) <$> SWADESH_SWEDISH).
Proof.
  split; [apply sort_by_freq_reverse_sorted|].
  intros Hnone.
  assert (Hjoin : swadesh_join total_counter
                  = (λ kv, {| sv := kv.1; en := kv.2; freq := 0 |}) <$> SWADESH_SWEDISH).
  { unfold swadesh_join. apply list_fmap_ext. intros i kv Hkv.
    rewrite (Hnone kv.1); [done|].
    apply list_elem_of_fmap. exists kv. split; [done|].
    by eapply list_elem_of_lookup_2. }
  unfold build_swadesh_data. rewrite Hjoin.
  apply sort_by_freq_reverse_sorted.
  unfold freq_descending. generalize SWADESH_SWEDISH. intros l.
  induction l as [|kv l IH]; [constructor|].
  cbn [fmap list_fmap]. constructor; [exact IH|].
  apply Forall_fmap, Forall_forall. intros ? _. cbn. lia.
Qed.

Lemma ranking_keeps_sorted_vocabulary_witness :
  sv <$> build_swadesh_data (tokenize_and_count (py "Hello world, said the cat"))
  = SWADESH_SWEDISH.*1.
Proof.
  destruct (ranking_keeps_sorted_vocabulary
              (tokenize_and_count (py "Hello world, said the cat"))) as [_ Hnone].
  rewrite Hnone.
  - by rewrite <- list_fmap_compose.
  - intros w Hw.
    assert (Hall : forallb (λ w, match tokenize_and_count
                                         (py "Hello world, said the cat") !! w with
                                 | None => true
                                 | Some _ => false
                                 end) SWADESH_SWEDISH.*1 = true)
      by (vm_compute; reflexivity).
    pose proof (list_forallb _ _ w Hall Hw) as Hw'. cbv beta in Hw'.
    destruct (tokenize_and_count (py "Hello world, said the cat") !! w);
      [discriminate|reflexivity].
Defined.

Lemma freq_sum_upper b l :
  Forall (λ e, (freq e ≤ b)%Z) l → (freq_sum l ≤ Z.of_nat (length l) * b)%Z.
Proof.
  induction 1 as [|e l He _ IH]; [done|].
  rewrite freq_sum_cons. cbn [length]. lia.
Qed.

Lemma freq_sum_lower b l :
  Forall (λ e, (b ≤ freq e)%Z) l → (Z.of_nat (length l) * b ≤ freq_sum l)%Z.
Proof.
  induction 1 as [|e l He _ IH]; [done|].
  rewrite freq_sum_cons. cbn [length]. lia.
Qed.

Lemma descending_app_inv l1 l2 :
  freq_descending (l1 ++ l2) →
  freq_descending l2
  ∧ ∀ x y, x ∈ l1 → y ∈ l2 → (freq y ≤ freq x)%Z.
Proof.
  unfold freq_descending. induction l1 as [|a l1 IH]; cbn [app].
  - intros H. split; [done|]. intros x y Hx. by apply elem_of_nil in Hx.
  - intros H. inversion H as [|? ? Hs Ha]; subst.
    destruct (IH Hs) as [Hl2 Hxy]. split; [done|].
    intros x y Hx Hy. apply elem_of_cons in Hx as [->|Hx]; [|by apply Hxy].
    rewrite Forall_forall in Ha. apply Ha. apply elem_of_app. by right.
Qed.

(** The first [n] entries of a ranked list weigh at least as much as the
    next [n]. *)
Lemma descending_take_sum n l :
  freq_descending l → (2 * n ≤ length l)%nat →
  (freq_sum (take n (drop n l)) ≤ freq_sum (take n l))%Z.
Proof.
  intros Hl Hlen.
  rewrite <- (take_drop n l) in Hl.
  apply descending_app_inv in Hl as [Hrest Hcross].
  destruct (drop n l) as [|d rest] eqn:Hdrop.
  - apply (f_equal length) in Hdrop. rewrite length_drop in Hdrop.
    cbn in Hdrop. assert (n = 0)%nat as -> by lia. done.
  - assert (Hup : Forall (λ e, (freq e ≤ freq d)%Z) (take n (d :: rest))).
    { apply Forall_take. constructor; [lia|].
      unfold freq_descending in Hrest. by inversion Hrest. }
    assert (Hlow : Forall (λ e, (freq d ≤ freq e)%Z) (take n l)).
    { apply Forall_forall. intros x Hx. apply (Hcross x d Hx). left. }
    apply freq_sum_upper in Hup. apply freq_sum_lower in Hlow.
    assert (length (take n (d :: rest)) = n).
    { rewrite length_take, <- Hdrop, length_drop. lia. }
    assert (length (take n l) = n) by (rewrite length_take; lia).
    lia.
Qed.

Lemma length_build_swadesh_data total_counter :
  length (build_swadesh_data total_counter) = 257%nat.
Proof.
  unfold build_swadesh_data.
  rewrite (Permutation_length (sort_by_freq_reverse_perm _)).
  unfold swadesh_join, SWADESH_SWEDISH. rewrite !length_fmap. reflexivity.
Qed.

(** X14: for the ranked list of a corpus mapping with non-negative
    counts, the returned coverage of tier 2, a float, never exceeds the
    returned coverage of tier 1: the division, the product and the
    rounding are monotone float operations. *)
Theorem tier1_at_least_tier2 (total_counter : gmap str Z) :
  counts_at_least 0 total_counter →
  let total_words := values_sum total_counter in
  (tier2 (compute_tier_coverage (build_swadesh_data total_counter) total_words)
   <= tier1 (compute_tier_coverage (build_swadesh_data total_counter) total_words))%Q.
Proof.
  intros Hpos total_words.
  pose proof (values_sum_nonneg total_counter Hpos) as Htotal.
  fold total_words in Htotal.
  assert (Hperm : build_swadesh_data total_counter ≡ₚ swadesh_join total_counter)
    by apply sort_by_freq_reverse_perm.
  assert (Hall : Forall (λ e, (0 ≤ freq e)%Z) (build_swadesh_data total_counter)).
  { rewrite Hperm. by apply swadesh_join_nonneg. }
  unfold compute_tier_coverage.
  destruct (Z.eqb_spec total_words 0) as [E|Hne]; cbn [tier1 tier2].
  - apply Qle_refl.
  - assert (Hlow : (0 ≤ freq_sum (take (TIER2_SIZE - TIER1_SIZE)
                        (drop TIER1_SIZE (build_swadesh_data total_counter))))%Z)
      by (apply freq_sum_nonneg; by apply Forall_take, Forall_drop).
    assert (Hle : (freq_sum (take (TIER2_SIZE - TIER1_SIZE)
                      (drop TIER1_SIZE (build_swadesh_data total_counter)))
                   ≤ freq_sum (take TIER1_SIZE (build_swadesh_data total_counter)))%Z).
    { apply descending_take_sum.
      - apply sort_by_freq_reverse_descending.
      - rewrite length_build_swadesh_data. unfold TIER1_SIZE. lia. }
    apply round1_mono.
    + pose proof (percent_mono 0 _ total_words ltac:(lia) (conj (Z.le_refl 0) Hlow)) as H.
      assert (Hz : (percent 0 total_words == 0)%Q).
      { unfold percent. rewrite (binary64_zero (inject_Z 0 / inject_Z total_words)).
        - reflexivity.
        - unfold Qdiv. change (inject_Z 0) with 0%Q. ring. }
      rewrite Hz in H. exact H.
    + apply percent_mono; [lia|]. split; [exact Hlow|exact Hle].
Qed.

Lemma tier1_at_least_tier2_witness :
  let total_counter := tokenize_and_count swadesh_text in
  let coverage :=
    compute_tier_coverage (build_swadesh_data total_counter) (values_sum total_counter) in
  (tier2 coverage == 195 # 10)%Q ∧ (tier2 coverage <= tier1 coverage)%Q.
Proof.
  intros total_counter coverage. split; [vm_compute; reflexivity|].
  apply (tier1_at_least_tier2 total_counter).
  intros k v Hk. pose proof (tokenize_at_least _ k v Hk). lia.
Defined.
(** ** The worker, short lists and discovery again *)

(** X15: the worker returns a mapping exactly when the extraction gives
    a text of at least 100 characters; the mapping is then that of the
    tokenizer on this text, and the path returned is the path given.  An
    absent text, an empty text and a text of fewer than 100 characters
    all give the null result. *)
Theorem worker_result env filepath sub_counter path :
  process_single_file env filepath = Some (sub_counter, path)
  ↔ ∃ text, extract_text env filepath = Some text
            ∧ (100 ≤ length text)%nat
            ∧ sub_counter = tokenize_and_count text
            ∧ path = filepath.
Proof.
  unfold process_single_file. split.
  - destruct (extract_text env filepath) as [text|]; [|discriminate].
    destruct (bool_decide (text = []) || (length text <? 100)%nat) eqn:Hshort;
      [discriminate|].
    intros [= <- <-]. exists text.
    apply orb_false_iff in Hshort as [_ Hlen]. apply Nat.ltb_ge in Hlen. done.
  - intros (text & -> & Hlen & -> & ->).
    destruct text as [|c text]; [cbn in Hlen; lia|].
    rewrite bool_decide_eq_false_2 by discriminate.
    replace (length (c :: text) <? 100)%nat with false
      by (symmetry; apply Nat.ltb_ge; lia).
    done.
Qed.

Lemma worker_result_witness :
  ∃ text, extract_text short_files (py "books/lagom.txt") = Some text
          ∧ (100 ≤ length text)%nat.
Proof.
  assert (H : process_single_file short_files (py "books/lagom.txt")
              = Some ({[ py "hej" := 25%Z ]}, py "books/lagom.txt"))
    by (vm_compute; reflexivity).
  apply (proj1 (worker_result _ _ _ _)) in H as (text & Htext & Hlen & _).
  by exists text.
Defined.

(** X16: a ranked list of at most 50 entries has nothing in tiers 2 and
    3, and one of at most 100 entries has nothing in tier 3: their
    coverage is 0 for every total. *)
Theorem short_list_tiers (swadesh_data : list entry) (total_words : Z) :
  ((length swadesh_data ≤ TIER1_SIZE)%nat →
   (tier2 (compute_tier_coverage swadesh_data total_words) == 0)%Q
   ∧ (tier3 (compute_tier_coverage swadesh_data total_words) == 0)%Q)
  ∧ ((length swadesh_data ≤ TIER2_SIZE)%nat →
     (tier3 (compute_tier_coverage swadesh_data total_words) == 0)%Q).
Proof.
  assert (Hzero : ∀ t, (round1 (percent 0 t) == 0)%Q)
    by (intros [|p|p]; vm_compute; reflexivity).
  unfold compute_tier_coverage, TIER1_SIZE, TIER2_SIZE. split.
  - intros Hlen. rewrite (drop_ge swadesh_data 50), (drop_ge swadesh_data 100) by lia.
    rewrite take_nil.
    destruct (total_words =? 0)%Z; cbn [tier2 tier3]; [done|].
    change (freq_sum []) with 0%Z. by split.
  - intros Hlen. rewrite (drop_ge swadesh_data 100) by lia.
    destruct (total_words =? 0)%Z; cbn [tier3]; [done|].
    change (freq_sum []) with 0%Z. apply Hzero.
Qed.

Lemma short_list_tiers_witness :
  (tier3 (compute_tier_coverage
            [ {| sv := py "jag"; en := py "I"; freq := 3 |};
              {| sv := py "du"; en := py "you (singular)"; freq := 1 |} ] 4) == 0)%Q
  ∧ (tier1 (compute_tier_coverage
              [ {| sv := py "jag"; en := py "I"; freq := 3 |};
                {| sv := py "du"; en := py "you (singular)"; freq := 1 |} ] 4)
     == 100)%Q.
Proof.
  split; [|vm_compute; reflexivity].
  apply (proj2 (short_list_tiers _ 4)). cbn. unfold TIER2_SIZE. lia.
Defined.

(** X17: the discovery loses no file: every file of a walked directory
    whose name has an extension with a handler is in the list returned,
    under the path joined from the directory and the name. *)
Theorem collect_files_complete dirs books_dir include_legacy d name :
  d ∈ walk dirs books_dir → name ∈ d.2 → has_handler name = true →
  path_join d.1 name ∈ collect_files dirs books_dir include_legacy.
Proof.
  intros Hd Hname Hh. unfold collect_files. rewrite sorted_perm.
  assert (Hbooks :
    path_join d.1 name
    ∈ flat_map (λ d, path_join d.1 <$> filter (λ name, has_handler name = true) d.2)
               (walk dirs books_dir)).
  { apply list_elem_of_In, in_flat_map. exists d.
    split; [by apply list_elem_of_In|].
    apply list_elem_of_In, list_elem_of_fmap. exists name.
    split; [done|]. by apply list_elem_of_filter. }
  destruct include_legacy; [|exact Hbooks].
  destruct (legacy_listing dirs); [|exact Hbooks].
  apply elem_of_app. by left.
Qed.

Lemma collect_files_complete_witness :
  py "books/sagor/A.EPUB" ∈ collect_files sample_dirs (py "books") false.
Proof.
  apply (collect_files_complete sample_dirs (py "books") false
           (py "books/sagor", [py "A.EPUB"; py "omslag.jpg"]) (py "A.EPUB")).
  - right. left.
  - left.
  - vm_compute. reflexivity.
Defined.

